(** * GPUPooledStorageManager (src/storage/pooled_storage_manager.h)

    A shallow embedding of the pooled GPU storage manager: a map from
    block size to a vector of idle device pointers, a used-memory counter
    and a reserve percentage.  The HIP runtime is an interface
    ([HipRuntime]); every call the manager makes is appended to a log, so
    that statements about "which device calls were issued, in which order"
    are statements about a list. *)

From Stdlib Require Import ZArith Lia List String.
From stdpp Require Import base gmap list fin_maps.

Local Open Scope Z_scope.

(** ** Machine integers *)

(** [size_t] is a 64-bit unsigned integer; arithmetic wraps. *)
Definition SIZE_WIDTH : Z := 64.
Definition SIZE_MOD : Z := 2 ^ SIZE_WIDTH.
Definition to_size_t (z : Z) : Z := z mod SIZE_MOD.

Definition size_add (a b : Z) : Z := to_size_t (a + b).
Definition size_sub (a b : Z) : Z := to_size_t (a - b).
Definition size_mul (a b : Z) : Z := to_size_t (a * b).

(** A [void*] is an address, a [Z]; [nullptr] is 0. *)
Definition nullptr : Z := 0.

(** ** The HIP runtime, as the manager sees it *)

Inductive hipError_t : Type :=
| hipSuccess
| hipErrorOutOfMemory
| hipErrorUnknown.

Definition hip_failed (e : hipError_t) : bool :=
  match e with hipSuccess => false | _ => true end.

(** [D] is the state of the device runtime, outside the manager's control.
    [hipMemGetInfo] writes two [size_t]; [hipMalloc] writes a pointer and
    reports an error code; [hipFree] reports an error code. *)
Class HipRuntime (D : Type) : Type := {
  hipMemGetInfo : D -> (Z * Z) * D;
  hipMalloc : Z -> D -> (hipError_t * Z) * D;
  hipFree : Z -> D -> hipError_t * D
}.

(** Calls recorded in the log.  [CallReleaseAll] marks an entry into the
    manager's own [ReleaseAll]; the other three are device-runtime calls. *)
Inductive call : Type :=
| CallMemGetInfo
| CallMalloc (size : Z)
| CallFree (p : Z)
| CallReleaseAll.

Definition is_device_call (c : call) : bool :=
  match c with CallReleaseAll => false | _ => true end.

Definition is_release_all (c : call) : bool :=
  match c with CallReleaseAll => true | _ => false end.

(** ** The manager *)

(** [const int NDEV = 32]. *)
Definition NDEV : Z := 32.

Record manager : Type := mkManager {
  used_memory_ : Z;                    (* size_t used_memory_ = 0 *)
  reserve_ : Z;                        (* int reserve_ *)
  memory_pool_ : gmap Z (list Z)       (* unordered_map<size_t, vector<void*>> *)
}.

Definition set_used (u : Z) (m : manager) : manager :=
  mkManager u (reserve_ m) (memory_pool_ m).

Definition set_pool (p : gmap Z (list Z)) (m : manager) : manager :=
  mkManager (used_memory_ m) (reserve_ m) p.

(** The manager together with the device it talks to and the call log. *)
Record world (D : Type) : Type := mkWorld {
  mgr : manager;
  dev : D;
  log : list call
}.
Arguments mkWorld {D} _ _ _.
Arguments mgr {D} _.
Arguments dev {D} _.
Arguments log {D} _.

(** [LOG(FATAL)] leaves the function at once (dmlc throws an error); the
    state is the one reached at that point. *)
Inductive result (D A : Type) : Type :=
| Ok (a : A) (w : world D)
| Fatal (msg : string) (w : world D).
Arguments Ok {D A} _ _.
Arguments Fatal {D A} _ _.

Definition is_fatal {D A} (r : result D A) : bool :=
  match r with Fatal _ _ => true | Ok _ _ => false end.

Definition world_of {D A} (r : result D A) : world D :=
  match r with Ok _ w => w | Fatal _ w => w end.

(** The constructor: [reserve_ = dmlc::GetEnv("MXNET_GPU_MEM_POOL_RESERVE", 5)].
    The environment maps a variable name to its integer value when set. *)
Definition GetEnv (env : string -> option Z) (key : string) (default : Z) : Z :=
  match env key with
  | Some v => v
  | None => default
  end.

Definition GPUPooledStorageManager (env : string -> option Z) : manager :=
  mkManager 0 (GetEnv env "MXNET_GPU_MEM_POOL_RESERVE" 5) ∅.

(** Construction seen as an operation that could report an error: it
    never does, and it touches no device. *)
Definition construct {D} (env : string -> option Z) (d : D) : result D unit :=
  Ok tt (mkWorld (GPUPooledStorageManager env) d []).

(** [size_t size = raw_size + NDEV]. *)
Definition bucket_key (raw_size : Z) : Z := size_add raw_size NDEV.

(** [total * reserve_ / 100]: [reserve_] is converted to [size_t], the
    product wraps, the division is unsigned. *)
Definition reserve_threshold (total reserve : Z) : Z :=
  size_mul total (to_size_t reserve) / 100.

(** [free <= total * reserve_ / 100 || size > free - total * reserve_ / 100],
    with the subtraction operator as a parameter: [||] evaluates its right
    operand only when the left one is false. *)
Definition need_flush_with (sub : Z -> Z -> Z) (free total reserve size : Z) : bool :=
  if free <=? reserve_threshold total reserve then true
  else size >? sub free (reserve_threshold total reserve).

Definition need_flush : Z -> Z -> Z -> Z -> bool := need_flush_with size_sub.

(** [if (size > 2147483647) size = 4194304;] *)
Definition MAX_SPACE : Z := 2147483647.
Definition TEMP_FIX_SIZE : Z := 4194304.
Definition native_size (size : Z) : Z :=
  if size >? MAX_SPACE then TEMP_FIX_SIZE else size.

Section Manager.
Context {D : Type} `{HipRuntime D}.

(** The error code of [hipFree] is tested and then dropped: the branch on
    it is empty. *)
Definition DirectFree (p raw_size : Z) (w : world D) : world D :=
  let '(err, d') := hipFree p (dev w) in
  let size := size_add raw_size NDEV in
  (* err is ignored *)
  mkWorld (set_used (size_sub (used_memory_ (mgr w)) size) (mgr w))
          d' (log w ++ [CallFree p]).

(** The inner loop of [ReleaseAll] over one bucket. *)
Definition release_bucket (w : world D) (i : Z * list Z) : world D :=
  foldl (fun w j => DirectFree j (size_sub (fst i) NDEV) w) w (snd i).

(** [unordered_map] iteration order is unspecified, and the container's
    own order is not the one of [map_to_list], which this definition
    visits.  The counter, the pool and the pointers that are freed are the
    same for every order ([ReleaseAll_order_irrelevant]); the order of the
    [hipFree] calls in the log, and what the device makes of it, are those
    of this order only, so statements about the calls of a [ReleaseAll]
    are made up to a permutation. *)
Definition ReleaseAll (w : world D) : world D :=
  let w0 := mkWorld (mgr w) (dev w) (log w ++ [CallReleaseAll]) in
  let w1 := foldl release_bucket w0 (map_to_list (memory_pool_ (mgr w))) in
  mkWorld (set_pool ∅ (mgr w1)) (dev w1) (log w1).

(** The miss branch of [Alloc], first part: [hipMemGetInfo(&free, &total)]
    and the conditional [ReleaseAll()]. *)
Definition flush_policy (size : Z) (w : world D) : world D :=
  let '((free, total), d1) := hipMemGetInfo (dev w) in
  let w1 := mkWorld (mgr w) d1 (log w ++ [CallMemGetInfo]) in
  if need_flush (to_size_t free) (to_size_t total) (reserve_ (mgr w)) size
  then ReleaseAll w1 else w1.

(** The miss branch of [Alloc], second part: the clamp of [size], the
    [hipMalloc], [LOG(FATAL)] on an error, and [used_memory_ += size]. *)
Definition native_alloc (size : Z) (w : world D) : result D Z :=
  let size := native_size size in
  let '((e, ret), d') := hipMalloc size (dev w) in
  let w' := mkWorld (mgr w) d' (log w ++ [CallMalloc size]) in
  if hip_failed e then Fatal "cudaMalloc failed" w'
  else Ok ret (mkWorld (set_used (size_add (used_memory_ (mgr w)) size) (mgr w))
                       d' (log w')).

(** [reuse_it == end() || reuse_it->second.size() == 0] *)
Definition reusable (size : Z) (m : manager) : option (list Z) :=
  match memory_pool_ m !! size with
  | Some [] => None
  | Some l => Some l
  | None => None
  end.

(** The hit branch takes [reuse_pool.back()] and does [pop_back()]; a
    [std::vector] is a list with its back at the end. *)
Definition Alloc (raw_size : Z) (w : world D) : result D Z :=
  let size := size_add raw_size NDEV in
  match reusable size (mgr w) with
  | None => native_alloc size (flush_policy size w)
  | Some reuse_pool =>
      Ok (List.last reuse_pool nullptr)
         (mkWorld (set_pool (<[size := removelast reuse_pool]> (memory_pool_ (mgr w))) (mgr w))
                  (dev w) (log w))
  end.

(** [memory_pool_[size]] creates an empty vector when the key is absent. *)
Definition Free (p raw_size : Z) (w : world D) : world D :=
  let size := size_add raw_size NDEV in
  let reuse_pool := default [] (memory_pool_ (mgr w) !! size) in
  mkWorld (set_pool (<[size := reuse_pool ++ [p]]> (memory_pool_ (mgr w))) (mgr w))
          (dev w) (log w).

End Manager.

(** ** Call sequences *)

Inductive op : Type :=
| OpAlloc (raw_size : Z)
| OpFree (p raw_size : Z)
| OpDirectFree (p raw_size : Z)
| OpReleaseAll.

(** Pointers checked out to callers, each with the bucket key it was
    requested under (ghost state, kept by the client of the manager). *)
Definition ledger : Type := list (Z * Z).

Definition ledger_bytes (L : ledger) : Z :=
  foldr (fun e acc => snd e + acc) 0 L.

Definition entry_eqb (a b : Z * Z) : bool :=
  (fst a =? fst b) && (snd a =? snd b).

(** Removes the first occurrence of an entry; [None] when it is absent. *)
Fixpoint take_out (e : Z * Z) (L : ledger) : option ledger :=
  match L with
  | [] => None
  | x :: L' =>
      if entry_eqb e x then Some L'
      else match take_out e L' with
           | Some L'' => Some (x :: L'')
           | None => None
           end
  end.

(** Bytes idle in the pool: every pointer counts for the key of its bucket. *)
Definition bucket_bytes (i : Z * list Z) : Z := fst i * Z.of_nat (length (snd i)).

Definition pooled_bytes (pool : gmap Z (list Z)) : Z :=
  foldr (fun i acc => bucket_bytes i + acc) 0 (map_to_list pool).

(** The idle pointers, bucket after bucket in [map_to_list] order. *)
Definition pooled_ptrs (pool : gmap Z (list Z)) : list Z :=
  concat (map snd (map_to_list pool)).

Definition releases (l : list call) : nat := length (filter (fun c => is_release_all c = true) l).
Definition device_calls (l : list call) : list call := filter (fun c => is_device_call c = true) l.

Definition touches (k : Z) (o : op) : bool :=
  match o with
  | OpAlloc raw_size => bucket_key raw_size =? k
  | _ => false
  end.

Definition small_request (o : op) : Prop :=
  match o with
  | OpAlloc raw_size => bucket_key raw_size <= MAX_SPACE
  | _ => True
  end.

(** The pointer most recently pushed on bucket [k] by the [Free]s of a call
    sequence, [h] when there is none. *)
Definition last_freed (k : Z) (ops : list op) (h : Z) : Z :=
  foldl (fun acc o =>
           match o with
           | OpFree p raw_size => if bucket_key raw_size =? k then p else acc
           | _ => acc
           end) h ops.

(** Every idle pointer was pushed by a [Free] under the key of its bucket. *)
Definition pushed_by (ops : list op) (pool : gmap Z (list Z)) : Prop :=
  forall k l p, pool !! k = Some l -> List.In p l ->
    exists raw_size, List.In (OpFree p raw_size) ops /\ bucket_key raw_size = k.

(** The counter accounts for [held] bytes out with callers plus what is
    idle in the pool. *)
Definition accounted (held : Z) (m : manager) : Prop :=
  used_memory_ m = to_size_t (held + pooled_bytes (memory_pool_ m)).

Section Runs.
Context {D : Type} `{HipRuntime D}.

(** One call; after a fatal [Alloc] the world is the one left behind. *)
Definition exec (o : op) (w : world D) : world D :=
  match o with
  | OpAlloc raw_size => world_of (Alloc raw_size w)
  | OpFree p raw_size => Free p raw_size w
  | OpDirectFree p raw_size => DirectFree p raw_size w
  | OpReleaseAll => ReleaseAll w
  end.

Definition execs (ops : list op) (w : world D) : world D := foldl (fun w o => exec o w) w ops.

(** One call of a client that keeps the contract: it frees only pointers
    it holds, under the size it requested them with. *)
Definition step (o : op) (st : world D * ledger) : option (world D * ledger) :=
  let '(w, L) := st in
  match o with
  | OpAlloc raw_size =>
      match Alloc raw_size w with
      | Ok p w' => Some (w', (p, bucket_key raw_size) :: L)
      | Fatal _ w' => Some (w', L)
      end
  | OpFree p raw_size =>
      match take_out (p, bucket_key raw_size) L with
      | Some L' => Some (Free p raw_size w, L')
      | None => None
      end
  | OpDirectFree p raw_size =>
      match take_out (p, bucket_key raw_size) L with
      | Some L' => Some (DirectFree p raw_size w, L')
      | None => None
      end
  | OpReleaseAll => Some (ReleaseAll w, L)
  end.

Fixpoint run (ops : list op) (st : world D * ledger) : option (world D * ledger) :=
  match ops with
  | [] => Some st
  | o :: ops' =>
      match step o st with
      | Some st' => run ops' st'
      | None => None
      end
  end.

End Runs.

(** ** A scripted device, for concrete runs *)

Module Sim.

Record device : Type := mkDevice {
  sim_free : Z;
  sim_total : Z;
  sim_mallocs : list (hipError_t * Z);   (* answers of the next hipMalloc calls *)
  sim_free_result : hipError_t           (* answer of every hipFree *)
}.

Definition sim_malloc (size : Z) (d : device) : (hipError_t * Z) * device :=
  match sim_mallocs d with
  | [] => ((hipErrorOutOfMemory, nullptr), d)
  | a :: rest => (a, mkDevice (sim_free d) (sim_total d) rest (sim_free_result d))
  end.

#[global] Instance sim_runtime : HipRuntime device := {|
  hipMemGetInfo d := ((sim_free d, sim_total d), d);
  hipMalloc := sim_malloc;
  hipFree p d := (sim_free_result d, d)
|}.

Definition no_env : string -> option Z := fun _ => None.
Definition env_of (v : Z) : string -> option Z :=
  fun key => if String.eqb key "MXNET_GPU_MEM_POOL_RESERVE" then Some v else None.

Definition boot (env : string -> option Z) (d : device) : world device :=
  mkWorld (GPUPooledStorageManager env) d [].

(** 1000 bytes in all, 500 free; two successful allocations scripted. *)
Definition roomy : device :=
  mkDevice 500 1000 [(hipSuccess, 4096); (hipSuccess, 8192)] hipSuccess.

(** 100 free of 1000, which is the 10 percent threshold: one allocation
    succeeds, the next one fails. *)
Definition tight : device :=
  mkDevice 100 1000 [(hipSuccess, 4096)] hipSuccess.

(** 1000 bytes free of [2 ^ 63]; two successful allocations scripted. *)
Definition huge : device :=
  mkDevice 1000 (2 ^ 63) [(hipSuccess, 4096); (hipSuccess, 8192)] hipSuccess.

(** A device whose [hipFree] always reports an error. *)
Definition stubborn : device :=
  mkDevice 500 1000 [(hipSuccess, 4096)] hipErrorUnknown.

(** One block of 64 bytes requested and given back: it is idle in bucket 96. *)
Definition parked (env : string -> option Z) (d : device) : world device :=
  execs [OpAlloc 64; OpFree 4096 64] (boot env d).

(** A 2 GiB request, given back and then released. *)
Definition big_ops : list op :=
  [OpAlloc (2 ^ 31); OpFree 4096 (2 ^ 31); OpReleaseAll].

End Sim.

(** ** The destructor and repeated calls *)

Section Lifetime.
Context {D : Type} `{HipRuntime D}.

(** [~GPUPooledStorageManager() { ReleaseAll(); }] *)
Definition destroy (w : world D) : world D := ReleaseAll w.

(** [Free(p, raw_size)] for each pointer of a list, in order. *)
Definition frees (ps : list Z) (raw_size : Z) (w : world D) : world D :=
  foldl (fun w p => Free p raw_size w) w ps.

(** [n] calls of [Alloc(raw_size)] in a row, with the pointers they
    return; [None] as soon as one call is fatal. *)
Fixpoint allocs (n : nat) (raw_size : Z) (w : world D) : option (list Z * world D) :=
  match n with
  | O => Some ([], w)
  | S n' =>
      match Alloc raw_size w with
      | Ok p w' =>
          match allocs n' raw_size w' with
          | Some (ps, w'') => Some (p :: ps, w'')
          | None => None
          end
      | Fatal _ _ => None
      end
  end.

(** A world with bucket [k] set to [l]. *)
Definition with_bucket (k : Z) (l : list Z) (w : world D) : world D :=
  mkWorld (set_pool (<[k := l]> (memory_pool_ (mgr w))) (mgr w)) (dev w) (log w).

End Lifetime.

(** ** RandGenerator<cpu, DType> (src/common/random_generator.h) *)

(** [static const int kNumRandomStates = 1024]. *)
Definition kNumRandomStates : nat := 1024.

(** [uint32_t] arithmetic wraps modulo [2 ^ 32]. *)
Definition to_uint32 (z : Z) : Z := z mod 2 ^ 32.

Section RandGenerator.
(** [Engine] is the state of a [std::mt19937]; [mt_seed v] is the state
    [engine.seed(v)] leaves, which depends on [v] only. *)
Context {Engine : Type} (mt_seed : Z -> Engine).

(** [for (int i = 0; i < kNumRandomStates; ++i) (states_ + i)->seed(seed + i);]
    with [seed] a [uint32_t]: the sum is taken in [uint32_t]. *)
Definition Seed (seed : Z) (states_ : list Engine) : list Engine :=
  foldl (fun st i => <[i := mt_seed (to_uint32 (seed + Z.of_nat i))]> st)
        states_ (seq 0 kNumRandomStates).

End RandGenerator.

(** ** CuDNNConvolutionOp::GetTempSize (src/operator/cudnn_convolution-inl.h) *)

Record temp_sizes : Type := mkTempSizes {
  init_temp_size_ : bool;
  forward_workspace_ : Z;
  backward_workspace_ : Z;
  forward_workspace_byte_ : Z;
  backward_workspace_byte_ : Z
}.

(** A [miopen...GetWorkSpaceSize] call under [CUDNN_CALL]: the flag tells
    whether the status was success, the number is the [size_t] written. *)
Definition workspace_query : Type := (bool * Z)%type.

(** [dtype_size] is [sizeof(DType)].  [None] stands for the fatal error
    [CUDNN_CALL] raises on a status other than success. *)
Definition GetTempSize (dtype_size : Z)
    (back_data back_weights forward : workspace_query)
    (t : temp_sizes) : option temp_sizes :=
  if init_temp_size_ t then Some t
  else if negb (fst back_data) then None
  else let back_size := to_size_t (snd back_data) in
  if negb (fst back_weights) then None
  else let back_size_w := to_size_t (snd back_weights) in
  let backward_byte := Z.max back_size back_size_w in
  if negb (fst forward) then None
  else let forward_byte := to_size_t (snd forward) in
  Some (mkTempSizes true
          (size_add (forward_byte / dtype_size) 1)
          (size_add (backward_byte / dtype_size) 1)
          forward_byte
          backward_byte).

(** ** Arithmetic of [size_t] *)

Lemma SIZE_MOD_pos : 0 < SIZE_MOD.
Proof. reflexivity. Qed.

Lemma to_size_t_range z : 0 <= to_size_t z < SIZE_MOD.
Proof. unfold to_size_t. apply Z.mod_pos_bound, SIZE_MOD_pos. Qed.

Lemma to_size_t_small z : 0 <= z < SIZE_MOD -> to_size_t z = z.
Proof. intros Hz. unfold to_size_t. now apply Z.mod_small. Qed.

Lemma size_sub_idem_l a b : size_sub (to_size_t a) b = size_sub a b.
Proof. unfold size_sub, to_size_t. apply Zminus_mod_idemp_l. Qed.

Lemma size_sub_idem_r a b : size_sub a (to_size_t b) = size_sub a b.
Proof. unfold size_sub, to_size_t. apply Zminus_mod_idemp_r. Qed.

Lemma size_add_idem_l a b : size_add (to_size_t a) b = size_add a b.
Proof. unfold size_add, to_size_t. apply Zplus_mod_idemp_l. Qed.

Lemma size_sub_exact a b : 0 <= b <= a -> a < SIZE_MOD -> size_sub a b = a - b.
Proof. intros Hb Ha. unfold size_sub. apply to_size_t_small. lia. Qed.

Lemma bucket_key_range raw_size : 0 <= bucket_key raw_size < SIZE_MOD.
Proof. apply to_size_t_range. Qed.

(** A key that is a [size_t] survives [ReleaseAll]'s [i.first - NDEV]
    followed by [DirectFree]'s [raw_size + NDEV]. *)
Lemma bucket_key_of_sub k : bucket_key (size_sub k NDEV) = to_size_t k.
Proof.
  unfold bucket_key, size_sub. rewrite size_add_idem_l.
  unfold size_add. f_equal. lia.
Qed.

Lemma reserve_threshold_range total reserve :
  0 <= reserve_threshold total reserve < SIZE_MOD.
Proof.
  unfold reserve_threshold, size_mul.
  pose proof (to_size_t_range (total * to_size_t reserve)) as Hr.
  split.
  - apply Z.div_pos; lia.
  - apply Z.div_lt_upper_bound; lia.
Qed.

(** With a percentage that is a [size_t] as it stands and a product that
    fits in 64 bits, the threshold is the exact quotient. *)
Lemma reserve_threshold_exact total reserve :
  0 <= total -> 0 <= reserve < SIZE_MOD -> total * reserve < SIZE_MOD ->
  reserve_threshold total reserve = total * reserve / 100.
Proof.
  intros Ht Hr Hfit. unfold reserve_threshold, size_mul.
  rewrite (to_size_t_small reserve) by lia.
  rewrite to_size_t_small by nia. reflexivity.
Qed.

(** ** The flush decision *)

Lemma need_flush_with_agree sub free total reserve size :
  0 <= free < SIZE_MOD ->
  (forall a b, 0 <= b <= a -> a < SIZE_MOD -> sub a b = a - b) ->
  need_flush_with sub free total reserve size
  = need_flush_with Z.sub free total reserve size.
Proof.
  intros Hf Hsub. unfold need_flush_with.
  pose proof (reserve_threshold_range total reserve) as Ht.
  destruct (Z.leb_spec free (reserve_threshold total reserve)); [reflexivity|].
  rewrite Hsub by lia. reflexivity.
Qed.

Lemma need_flush_spec free total reserve size :
  0 <= free < SIZE_MOD ->
  need_flush free total reserve size = true <->
  free <= reserve_threshold total reserve
  \/ free - reserve_threshold total reserve < size.
Proof.
  intros Hf. unfold need_flush.
  rewrite (need_flush_with_agree size_sub) by (auto using size_sub_exact).
  unfold need_flush_with.
  destruct (Z.leb_spec free (reserve_threshold total reserve)) as [Hle|Hgt].
  - split; auto.
  - rewrite Z.gtb_ltb, Z.ltb_lt. split; [auto|intros [?|?]; [lia|assumption]].
Qed.



(** ** What the operations do to the manager, the device and the log *)

Lemma size_sub_sub a b c : size_sub (size_sub a b) c = size_sub a (b + c).
Proof. unfold size_sub at 2. rewrite size_sub_idem_l. unfold size_sub. f_equal. lia. Qed.

Section Facts.
Context {D : Type} `{HipRuntime D}.

Lemma DirectFree_mgr p raw_size (w : world D) :
  mgr (DirectFree p raw_size w)
  = set_used (size_sub (used_memory_ (mgr w)) (bucket_key raw_size)) (mgr w).
Proof. unfold DirectFree. destruct (hipFree p (dev w)). reflexivity. Qed.

Lemma DirectFree_log p raw_size (w : world D) :
  log (DirectFree p raw_size w) = log w ++ [CallFree p].
Proof. unfold DirectFree. destruct (hipFree p (dev w)). reflexivity. Qed.

Lemma DirectFree_dev p raw_size (w : world D) :
  dev (DirectFree p raw_size w) = snd (hipFree p (dev w)).
Proof. unfold DirectFree. destruct (hipFree p (dev w)). reflexivity. Qed.

Lemma release_bucket_mgr (i : Z * list Z) (w : world D) :
  mgr (release_bucket w i)
  = set_used (size_sub (used_memory_ (mgr w)) (bucket_bytes i)) (mgr w)
    \/ (snd i = [] /\ release_bucket w i = w).
Proof.
  destruct i as [k v]. unfold release_bucket, bucket_bytes. simpl.
  destruct v as [|j v]; [right; auto|left].
  revert j w. induction v as [|j' v IH]; intros j w.
  - simpl. rewrite DirectFree_mgr, bucket_key_of_sub, size_sub_idem_r.
    do 2 f_equal. lia.
  - change (foldl ?f w (j :: j' :: v)) with (foldl f (f w j) (j' :: v)).
    rewrite IH, DirectFree_mgr, bucket_key_of_sub, size_sub_idem_r.
    unfold set_used. simpl used_memory_. simpl reserve_. simpl memory_pool_.
    rewrite size_sub_sub. do 2 f_equal.
    change (length (j :: j' :: v)) with (S (length (j' :: v))). lia.
Qed.

Lemma release_bucket_used (i : Z * list Z) (w : world D) :
  used_memory_ (mgr (release_bucket w i))
  = size_sub (to_size_t (used_memory_ (mgr w))) (bucket_bytes i)
    \/ (snd i = [] /\ release_bucket w i = w).
Proof.
  destruct (release_bucket_mgr i w) as [->|?]; [left|right; assumption].
  simpl. now rewrite size_sub_idem_l.
Qed.

Lemma release_bucket_frame (i : Z * list Z) (w : world D) :
  reserve_ (mgr (release_bucket w i)) = reserve_ (mgr w)
  /\ memory_pool_ (mgr (release_bucket w i)) = memory_pool_ (mgr w).
Proof.
  destruct (release_bucket_mgr i w) as [->|[_ ->]]; auto.
Qed.

Lemma release_bucket_log (i : Z * list Z) (w : world D) :
  log (release_bucket w i) = log w ++ map CallFree (snd i).
Proof.
  destruct i as [k v]. unfold release_bucket. simpl. revert w.
  induction v as [|j v IH]; intros w; simpl.
  - now rewrite app_nil_r.
  - rewrite IH, DirectFree_log, <- app_assoc. reflexivity.
Qed.

(** The outer loop, over any list of buckets. *)
Lemma release_buckets_used (l : list (Z * list Z)) (w : world D) :
  to_size_t (used_memory_ (mgr (foldl release_bucket w l)))
  = size_sub (used_memory_ (mgr w)) (foldr (fun i acc => bucket_bytes i + acc) 0 l).
Proof.
  revert w. induction l as [|i l IH]; intros w; simpl.
  - unfold size_sub. now rewrite Z.sub_0_r.
  - rewrite IH. destruct (release_bucket_used i w) as [->|[Hnil ->]].
    + rewrite size_sub_idem_l, size_sub_sub. reflexivity.
    + unfold bucket_bytes. rewrite Hnil. simpl. rewrite Z.mul_0_r. reflexivity.
Qed.

(** Visiting the buckets in another order gives the same counter. *)
Lemma release_buckets_order (l1 l2 : list (Z * list Z)) (w : world D) :
  l1 ≡ₚ l2 ->
  to_size_t (used_memory_ (mgr (foldl release_bucket w l1)))
  = to_size_t (used_memory_ (mgr (foldl release_bucket w l2))).
Proof.
  intros Hperm. rewrite !release_buckets_used. f_equal.
  induction Hperm; simpl; lia.
Qed.

Lemma release_buckets_frame (l : list (Z * list Z)) (w : world D) :
  reserve_ (mgr (foldl release_bucket w l)) = reserve_ (mgr w)
  /\ memory_pool_ (mgr (foldl release_bucket w l)) = memory_pool_ (mgr w).
Proof.
  revert w. induction l as [|i l IH]; intros w; simpl; [auto|].
  destruct (IH (release_bucket w i)) as [-> ->]. apply release_bucket_frame.
Qed.

Lemma release_buckets_log (l : list (Z * list Z)) (w : world D) :
  log (foldl release_bucket w l) = log w ++ map CallFree (concat (map snd l)).
Proof.
  revert w. induction l as [|i l IH]; intros w; simpl.
  - now rewrite app_nil_r.
  - rewrite IH, release_bucket_log, map_app, app_assoc. reflexivity.
Qed.

Lemma release_buckets_range (l : list (Z * list Z)) (w : world D) :
  0 <= used_memory_ (mgr w) < SIZE_MOD ->
  0 <= used_memory_ (mgr (foldl release_bucket w l)) < SIZE_MOD.
Proof.
  revert w. induction l as [|i l IH]; intros w Hw; simpl; [assumption|].
  apply IH. destruct (release_bucket_mgr i w) as [->|[_ ->]]; [|assumption].
  simpl. apply to_size_t_range.
Qed.

Lemma release_buckets_idle (l : list (Z * list Z)) (w : world D) :
  Forall (fun i => snd i = []) l -> foldl release_bucket w l = w.
Proof.
  induction 1 as [|[k v] l Hi _ IH]; simpl; [reflexivity|].
  simpl in Hi. subst v. exact IH.
Qed.

Lemma ReleaseAll_pool (w : world D) : memory_pool_ (mgr (ReleaseAll w)) = ∅.
Proof. reflexivity. Qed.

Lemma ReleaseAll_reserve (w : world D) : reserve_ (mgr (ReleaseAll w)) = reserve_ (mgr w).
Proof. unfold ReleaseAll. simpl. now rewrite (proj1 (release_buckets_frame _ _)). Qed.

Lemma ReleaseAll_used (w : world D) :
  to_size_t (used_memory_ (mgr (ReleaseAll w)))
  = size_sub (used_memory_ (mgr w)) (pooled_bytes (memory_pool_ (mgr w))).
Proof. unfold ReleaseAll. simpl. now rewrite release_buckets_used. Qed.

Lemma ReleaseAll_range (w : world D) :
  0 <= used_memory_ (mgr w) < SIZE_MOD ->
  0 <= used_memory_ (mgr (ReleaseAll w)) < SIZE_MOD.
Proof. intros Hw. unfold ReleaseAll. simpl. now apply release_buckets_range. Qed.

Lemma ReleaseAll_log (w : world D) :
  log (ReleaseAll w)
  = log w ++ CallReleaseAll :: map CallFree (pooled_ptrs (memory_pool_ (mgr w))).
Proof.
  unfold ReleaseAll. simpl. rewrite release_buckets_log. simpl.
  now rewrite <- app_assoc.
Qed.

Lemma ReleaseAll_empty (w : world D) :
  memory_pool_ (mgr w) = ∅ ->
  ReleaseAll w = mkWorld (mgr w) (dev w) (log w ++ [CallReleaseAll]).
Proof.
  intros Hp. unfold ReleaseAll. rewrite Hp, map_to_list_empty. simpl.
  destruct w as [[u r p] d l]. simpl in *. subst p. reflexivity.
Qed.

Lemma ReleaseAll_idle (w : world D) :
  (forall k l, memory_pool_ (mgr w) !! k = Some l -> l = []) ->
  ReleaseAll w = mkWorld (set_pool ∅ (mgr w)) (dev w) (log w ++ [CallReleaseAll]).
Proof.
  intros Hidle. unfold ReleaseAll. rewrite release_buckets_idle; [reflexivity|].
  apply Forall_forall. intros [k l] Hin. simpl.
  apply (Hidle k). apply elem_of_map_to_list. exact Hin.
Qed.

End Facts.

(** ** [Alloc], branch by branch *)

Section AllocFacts.
Context {D : Type} `{HipRuntime D}.

Lemma reusable_Some size m l :
  reusable size m = Some l -> memory_pool_ m !! size = Some l /\ l <> [].
Proof.
  unfold reusable. destruct (memory_pool_ m !! size) as [[|x l']|]; try discriminate.
  intros [= <-]. split; [reflexivity|discriminate].
Qed.

Lemma reusable_lookup size m l :
  memory_pool_ m !! size = Some l -> l <> [] -> reusable size m = Some l.
Proof. unfold reusable. intros -> Hl. destruct l; [contradiction|reflexivity]. Qed.

Lemma reusable_None size m :
  reusable size m = None <->
  memory_pool_ m !! size = None \/ memory_pool_ m !! size = Some [].
Proof.
  unfold reusable. destruct (memory_pool_ m !! size) as [[|x l']|]; split;
    try discriminate; auto; intros [?|?]; discriminate.
Qed.

Lemma Alloc_hit raw_size (w : world D) l :
  reusable (bucket_key raw_size) (mgr w) = Some l ->
  Alloc raw_size w
  = Ok (List.last l nullptr)
       (mkWorld (set_pool (<[bucket_key raw_size := removelast l]> (memory_pool_ (mgr w))) (mgr w))
                (dev w) (log w)).
Proof. intros Hr. unfold Alloc. fold (bucket_key raw_size). now rewrite Hr. Qed.

Lemma Alloc_miss raw_size (w : world D) :
  reusable (bucket_key raw_size) (mgr w) = None ->
  Alloc raw_size w
  = native_alloc (bucket_key raw_size) (flush_policy (bucket_key raw_size) w).
Proof. intros Hr. unfold Alloc. fold (bucket_key raw_size). now rewrite Hr. Qed.

Lemma native_alloc_cases size (w : world D) :
  let r := hipMalloc (native_size size) (dev w) in
  native_alloc size w
  = if hip_failed (fst (fst r))
    then Fatal "cudaMalloc failed"
           (mkWorld (mgr w) (snd r) (log w ++ [CallMalloc (native_size size)]))
    else Ok (snd (fst r))
           (mkWorld (set_used (size_add (used_memory_ (mgr w)) (native_size size)) (mgr w))
                    (snd r) (log w ++ [CallMalloc (native_size size)])).
Proof.
  unfold native_alloc. simpl.
  destruct (hipMalloc (native_size size) (dev w)) as [[e ret] d']. reflexivity.
Qed.

Lemma native_alloc_log size (w : world D) :
  log (world_of (native_alloc size w)) = log w ++ [CallMalloc (native_size size)].
Proof.
  rewrite native_alloc_cases.
  destruct (hip_failed _); reflexivity.
Qed.

Lemma native_alloc_fatal size (w : world D) :
  is_fatal (native_alloc size w)
  = hip_failed (fst (fst (hipMalloc (native_size size) (dev w)))).
Proof.
  rewrite native_alloc_cases.
  destruct (hip_failed _); reflexivity.
Qed.

Lemma flush_policy_cases size (w : world D) :
  let q := hipMemGetInfo (dev w) in
  let w1 := mkWorld (mgr w) (snd q) (log w ++ [CallMemGetInfo]) in
  flush_policy size w
  = if need_flush (to_size_t (fst (fst q))) (to_size_t (snd (fst q)))
                  (reserve_ (mgr w)) size
    then ReleaseAll w1 else w1.
Proof.
  unfold flush_policy. simpl.
  destruct (hipMemGetInfo (dev w)) as [[free total] d1]. reflexivity.
Qed.

(** The manager state a run of [release_bucket] reaches depends on the
    manager state it starts from only, not on the device. *)
Lemma release_buckets_mgr_indep (l : list (Z * list Z)) (w w' : world D) :
  mgr w = mgr w' ->
  mgr (foldl release_bucket w l) = mgr (foldl release_bucket w' l).
Proof.
  revert w w'. induction l as [|i l IH]; intros w w' Hm; simpl; [assumption|].
  apply IH. destruct i as [k [|j v]]; [exact Hm|].
  destruct (release_bucket_mgr (k, j :: v) w) as [->|[Hnil _]]; [|discriminate].
  destruct (release_bucket_mgr (k, j :: v) w') as [->|[Hnil _]]; [|discriminate].
  now rewrite Hm.
Qed.

Lemma ReleaseAll_mgr_indep (w w' : world D) :
  mgr w = mgr w' -> mgr (ReleaseAll w) = mgr (ReleaseAll w').
Proof.
  intros Hm. unfold ReleaseAll. simpl. rewrite Hm.
  f_equal. now apply release_buckets_mgr_indep.
Qed.

Lemma flush_policy_mgr size (w : world D) :
  mgr (flush_policy size w) = mgr w
  \/ mgr (flush_policy size w) = mgr (ReleaseAll w).
Proof.
  rewrite flush_policy_cases. simpl.
  destruct (need_flush _ _ _ _); [right|left; reflexivity].
  now apply ReleaseAll_mgr_indep.
Qed.

End AllocFacts.

(** ** The constructor *)

(** C7 (as amended).  The constructor stores whatever integer the
    environment gives for MXNET_GPU_MEM_POOL_RESERVE, 5 when it is unset:
    it never reports an error, does not clamp, starts with an empty pool
    and a zero counter, and calls no device function. *)
Theorem constructor_accepts_any_reserve {D : Type} (env : string -> option Z) (d : D) :
  is_fatal (construct env d) = false
  /\ reserve_ (mgr (world_of (construct env d)))
     = match env "MXNET_GPU_MEM_POOL_RESERVE"%string with Some v => v | None => 5 end
  /\ used_memory_ (mgr (world_of (construct env d))) = 0
  /\ memory_pool_ (mgr (world_of (construct env d))) = ∅
  /\ dev (world_of (construct env d)) = d
  /\ log (world_of (construct env d)) = [].
Proof. repeat split. Qed.

(** A reserve percentage of 150 is accepted and stored as it is. *)
Lemma constructor_accepts_150 :
  is_fatal (construct (Sim.env_of 150) Sim.roomy) = false
  /\ reserve_ (mgr (world_of (construct (Sim.env_of 150) Sim.roomy))) = 150
  /\ ~ (0 <= 150 <= 100).
Proof. repeat split. lia. Qed.

(** A negative percentage is accepted as well; converted to [size_t] in
    the threshold it makes every miss flush the pool on a device of
    1000 bytes. *)
Lemma constructor_accepts_negative :
  reserve_ (mgr (world_of (construct (Sim.env_of (-1)) Sim.roomy))) = -1
  /\ reserve_threshold 1000 (-1) = 184467440737095506.
Proof. split; reflexivity. Qed.

Section Claims.
Context {D : Type} `{HipRuntime D}.

(** ** [DirectFree] *)

(** C8.  Whatever error code [hipFree] reports, [DirectFree] returns
    normally, with the counter decremented by [raw_size + NDEV] (in
    [size_t] arithmetic: an exact subtraction when nothing wraps), the
    pool and the percentage untouched, and exactly one device call logged. *)
Theorem DirectFree_decrements_regardless p raw_size (w : world D) e d' :
  hipFree p (dev w) = (e, d') ->
  DirectFree p raw_size w
  = mkWorld (mkManager (size_sub (used_memory_ (mgr w)) (size_add raw_size NDEV))
                       (reserve_ (mgr w)) (memory_pool_ (mgr w)))
            d' (log w ++ [CallFree p])
  /\ exec (OpDirectFree p raw_size) w = DirectFree p raw_size w
  /\ (0 <= raw_size -> raw_size + NDEV <= used_memory_ (mgr w) < SIZE_MOD ->
      used_memory_ (mgr (DirectFree p raw_size w))
      = used_memory_ (mgr w) - (raw_size + NDEV)).
Proof.
  intros Hfree. unfold DirectFree. rewrite Hfree. split; [reflexivity|].
  split; [simpl; unfold DirectFree; now rewrite Hfree|].
  intros Hraw Hused. simpl. unfold size_add.
  rewrite size_sub_idem_r. apply size_sub_exact; unfold NDEV in *; lia.
Qed.

(** ** [ReleaseAll] *)

Lemma device_calls_marker l : device_calls (l ++ [CallReleaseAll]) = device_calls l.
Proof. unfold device_calls. rewrite filter_app. simpl. apply app_nil_r. Qed.

(** C9.  A second [ReleaseAll] right after a first one changes neither the
    manager nor the device and calls no device function; and when every
    free list is empty a [ReleaseAll] issues no device call and leaves the
    counter alone. *)
Theorem ReleaseAll_idempotent (w : world D) :
  mgr (ReleaseAll (ReleaseAll w)) = mgr (ReleaseAll w)
  /\ dev (ReleaseAll (ReleaseAll w)) = dev (ReleaseAll w)
  /\ log (ReleaseAll (ReleaseAll w)) = log (ReleaseAll w) ++ [CallReleaseAll]
  /\ device_calls (log (ReleaseAll (ReleaseAll w))) = device_calls (log (ReleaseAll w))
  /\ ((forall k l, memory_pool_ (mgr w) !! k = Some l -> l = []) ->
      used_memory_ (mgr (ReleaseAll w)) = used_memory_ (mgr w)
      /\ dev (ReleaseAll w) = dev w
      /\ device_calls (log (ReleaseAll w)) = device_calls (log w)).
Proof.
  pose proof (ReleaseAll_empty (ReleaseAll w) (ReleaseAll_pool w)) as Hsecond.
  rewrite Hsecond. repeat split.
  - apply device_calls_marker.
  - now rewrite (ReleaseAll_idle w).
  - now rewrite (ReleaseAll_idle w).
  - rewrite (ReleaseAll_idle w) by assumption. apply device_calls_marker.
Qed.

(** ** [Alloc]: the reserve check *)

(** C3 (as amended).  On the miss path, when the free capacity reported
    by the device is at or below the threshold [total * reserve_ / 100] as
    the code evaluates it (in [size_t]: the product wraps, and it is the
    exact quotient when the product fits in 64 bits), or the bucket key
    exceeds what is free above that threshold, [Alloc] runs [ReleaseAll]
    before its one [hipMalloc]: the log shows the query, the entry into
    [ReleaseAll], one [hipFree] for each idle pointer, in some order, and
    then the [hipMalloc]. *)
Theorem Alloc_flushes_before_native raw_size (w : world D) free total d1 :
  reusable (bucket_key raw_size) (mgr w) = None ->
  hipMemGetInfo (dev w) = ((free, total), d1) ->
  to_size_t free <= reserve_threshold (to_size_t total) (reserve_ (mgr w))
  \/ to_size_t free - reserve_threshold (to_size_t total) (reserve_ (mgr w))
     < bucket_key raw_size ->
  Alloc raw_size w
  = native_alloc (bucket_key raw_size)
      (ReleaseAll (mkWorld (mgr w) d1 (log w ++ [CallMemGetInfo])))
  /\ (exists freed,
        log (world_of (Alloc raw_size w))
        = log w ++ [CallMemGetInfo; CallReleaseAll]
            ++ map CallFree freed
            ++ [CallMalloc (native_size (bucket_key raw_size))]
        /\ freed ≡ₚ pooled_ptrs (memory_pool_ (mgr w)))
  /\ (0 <= reserve_ (mgr w) < SIZE_MOD ->
      to_size_t total * reserve_ (mgr w) < SIZE_MOD ->
      reserve_threshold (to_size_t total) (reserve_ (mgr w))
      = to_size_t total * reserve_ (mgr w) / 100).
Proof.
  intros Hmiss Hq Hcond.
  assert (Hflush : flush_policy (bucket_key raw_size) w
                   = ReleaseAll (mkWorld (mgr w) d1 (log w ++ [CallMemGetInfo]))).
  { rewrite flush_policy_cases, Hq. simpl.
    apply need_flush_spec in Hcond; [|apply to_size_t_range].
    now rewrite Hcond. }
  rewrite (Alloc_miss _ _ Hmiss), Hflush. split; [reflexivity|]. split.
  - exists (pooled_ptrs (memory_pool_ (mgr w))). split; [|reflexivity].
    rewrite native_alloc_log, ReleaseAll_log. simpl.
    rewrite <- !app_assoc. reflexivity.
  - intros Hr Hfit. apply reserve_threshold_exact; [|assumption|assumption].
    apply to_size_t_range.
Qed.

(** The other direction: with free capacity above the threshold and a key
    that fits above it, the pool is left alone. *)
Lemma Alloc_no_flush raw_size (w : world D) free total d1 :
  reusable (bucket_key raw_size) (mgr w) = None ->
  hipMemGetInfo (dev w) = ((free, total), d1) ->
  reserve_threshold (to_size_t total) (reserve_ (mgr w)) < to_size_t free ->
  bucket_key raw_size
  <= to_size_t free - reserve_threshold (to_size_t total) (reserve_ (mgr w)) ->
  Alloc raw_size w
  = native_alloc (bucket_key raw_size) (mkWorld (mgr w) d1 (log w ++ [CallMemGetInfo])).
Proof.
  intros Hmiss Hq Hthr Hfit.
  rewrite (Alloc_miss _ _ Hmiss), flush_policy_cases, Hq. simpl.
  destruct (need_flush _ _ _ _) eqn:Hnf; [|reflexivity].
  apply need_flush_spec in Hnf; [lia|apply to_size_t_range].
Qed.

(** ** [Alloc]: the native allocation *)

Lemma native_size_cases size :
  (size <= MAX_SPACE -> native_size size = size)
  /\ (MAX_SPACE < size -> native_size size = TEMP_FIX_SIZE).
Proof.
  unfold native_size. rewrite Z.gtb_ltb.
  destruct (Z.ltb_spec MAX_SPACE size); split; intros; try reflexivity; lia.
Qed.

(** C1 (as amended).  On the miss path [Alloc] issues one [hipMalloc], of
    the bucket key when the key is at most 2147483647 and of 4194304 bytes
    when it is larger, and either returns the pointer of that call or
    fails; on the hit path it returns the last pointer of the bucket of
    that key and makes no device call. *)
Theorem Alloc_native_size raw_size (w : world D) :
  (reusable (bucket_key raw_size) (mgr w) = None ->
   let w1 := flush_policy (bucket_key raw_size) w in
   let r := hipMalloc (native_size (bucket_key raw_size)) (dev w1) in
   log (world_of (Alloc raw_size w))
   = log w1 ++ [CallMalloc (native_size (bucket_key raw_size))]
   /\ Alloc raw_size w
      = (if hip_failed (fst (fst r))
         then Fatal "cudaMalloc failed"
                (mkWorld (mgr w1) (snd r)
                   (log w1 ++ [CallMalloc (native_size (bucket_key raw_size))]))
         else Ok (snd (fst r))
                (mkWorld (set_used (size_add (used_memory_ (mgr w1))
                                      (native_size (bucket_key raw_size))) (mgr w1))
                   (snd r)
                   (log w1 ++ [CallMalloc (native_size (bucket_key raw_size))])))
   /\ (bucket_key raw_size <= MAX_SPACE ->
       native_size (bucket_key raw_size) = bucket_key raw_size)
   /\ (MAX_SPACE < bucket_key raw_size ->
       native_size (bucket_key raw_size) = TEMP_FIX_SIZE))
  /\ (forall l, reusable (bucket_key raw_size) (mgr w) = Some l ->
      Alloc raw_size w
      = Ok (List.last l nullptr)
           (mkWorld (set_pool (<[bucket_key raw_size := removelast l]>
                                 (memory_pool_ (mgr w))) (mgr w))
              (dev w) (log w))
      /\ List.In (List.last l nullptr) l).
Proof.
  split.
  - intros Hmiss w1 r. rewrite (Alloc_miss _ _ Hmiss). fold w1.
    split; [apply native_alloc_log|].
    split; [apply native_alloc_cases|]. apply native_size_cases.
  - intros l Hhit. split; [now apply Alloc_hit|].
    apply reusable_Some in Hhit as [_ Hne].
    destruct (exists_last Hne) as (l' & a & ->).
    rewrite last_last. apply in_or_app. right. now left.
Qed.

(** C6 (as amended).  [Alloc] fails exactly when it is on the miss path
    and the [hipMalloc] issued after the flush policy reports an error.
    The manager is then as the flush policy left it (as before the call,
    or as after a [ReleaseAll]): the counter has not been incremented, and
    the log ends with that one [hipMalloc], which is not tried again. *)
Theorem Alloc_fatal_iff raw_size (w : world D) :
  (is_fatal (Alloc raw_size w) = true <->
   reusable (bucket_key raw_size) (mgr w) = None
   /\ hip_failed (fst (fst (hipMalloc (native_size (bucket_key raw_size))
                              (dev (flush_policy (bucket_key raw_size) w))))) = true)
  /\ (is_fatal (Alloc raw_size w) = true ->
      mgr (world_of (Alloc raw_size w)) = mgr (flush_policy (bucket_key raw_size) w)
      /\ (mgr (world_of (Alloc raw_size w)) = mgr w
          \/ mgr (world_of (Alloc raw_size w)) = mgr (ReleaseAll w))
      /\ log (world_of (Alloc raw_size w))
         = log (flush_policy (bucket_key raw_size) w)
             ++ [CallMalloc (native_size (bucket_key raw_size))]).
Proof.
  destruct (reusable (bucket_key raw_size) (mgr w)) as [l|] eqn:Hr.
  - rewrite (Alloc_hit _ _ _ Hr). simpl. split.
    + split; [discriminate|intros [? _]; discriminate].
    + discriminate.
  - rewrite (Alloc_miss _ _ Hr). split.
    + rewrite native_alloc_fatal. split; [auto|intros [_ ?]; assumption].
    + intros Hfatal. rewrite native_alloc_log.
      rewrite native_alloc_fatal in Hfatal.
      rewrite native_alloc_cases, Hfatal. simpl.
      repeat split. apply flush_policy_mgr.
Qed.

End Claims.

(** ** Reuse: last in, first out, and only within a bucket *)

Section Reuse.
Context {D : Type} `{HipRuntime D}.

Lemma releases_app l ev : releases (l ++ ev) = (releases l + releases ev)%nat.
Proof. unfold releases. now rewrite filter_app, length_app. Qed.

Lemma flush_policy_log size (w : world D) :
  exists ev, log (flush_policy size w) = log w ++ ev
             /\ (releases ev = 0%nat -> mgr (flush_policy size w) = mgr w).
Proof.
  rewrite flush_policy_cases. cbv zeta. destruct (need_flush _ _ _ _).
  - exists ([CallMemGetInfo]
            ++ CallReleaseAll :: map CallFree (pooled_ptrs (memory_pool_ (mgr w)))).
    split; [rewrite ReleaseAll_log; simpl; now rewrite <- app_assoc|].
    unfold releases. simpl. discriminate.
  - eexists. split; [reflexivity|]. reflexivity.
Qed.

Lemma native_alloc_pool size (w : world D) :
  memory_pool_ (mgr (world_of (native_alloc size w))) = memory_pool_ (mgr w).
Proof. rewrite native_alloc_cases. destruct (hip_failed _); reflexivity. Qed.

(** Every call extends the log; a call that is not an [Alloc] of bucket [k]
    and enters no [ReleaseAll] leaves bucket [k] alone, except a [Free]
    into it, which pushes at the back. *)
Lemma exec_bucket k o (w : world D) :
  exists ev, log (exec o w) = log w ++ ev
  /\ (touches k o = false -> releases ev = 0%nat ->
      memory_pool_ (mgr (exec o w)) !! k
      = match o with
        | OpFree p raw_size =>
            if bucket_key raw_size =? k
            then Some (default [] (memory_pool_ (mgr w) !! k) ++ [p])
            else memory_pool_ (mgr w) !! k
        | _ => memory_pool_ (mgr w) !! k
        end).
Proof.
  destruct o as [raw_size|p raw_size|p raw_size|]; cbn [exec touches].
  - destruct (reusable (bucket_key raw_size) (mgr w)) as [l|] eqn:Hr.
    + rewrite (Alloc_hit _ _ _ Hr). simpl. exists []. rewrite app_nil_r.
      split; [reflexivity|]. intros Hk _. apply Z.eqb_neq in Hk.
      now rewrite lookup_insert_ne.
    + rewrite (Alloc_miss _ _ Hr), native_alloc_log, native_alloc_pool.
      destruct (flush_policy_log (bucket_key raw_size) w) as (ev & -> & Hev).
      rewrite <- app_assoc. eexists. split; [reflexivity|].
      intros _ Hrel. rewrite releases_app in Hrel. rewrite Hev by lia. reflexivity.
  - exists []. rewrite app_nil_r. split; [reflexivity|]. intros _ _.
    simpl. fold (bucket_key raw_size).
    destruct (Z.eqb_spec (bucket_key raw_size) k) as [->|Hne].
    + now rewrite lookup_insert_eq.
    + now rewrite lookup_insert_ne.
  - rewrite DirectFree_log, DirectFree_mgr. eexists. split; reflexivity.
  - rewrite ReleaseAll_log. eexists. split; [reflexivity|].
    intros _. unfold releases. simpl. discriminate.
Qed.

Lemma exec_releases o (w : world D) :
  (releases (log w) <= releases (log (exec o w)))%nat.
Proof.
  destruct (exec_bucket 0 o w) as (ev & -> & _). rewrite releases_app. lia.
Qed.

Lemma execs_cons o ops (w : world D) : execs (o :: ops) w = execs ops (exec o w).
Proof. reflexivity. Qed.

Lemma execs_releases ops (w : world D) :
  (releases (log w) <= releases (log (execs ops w)))%nat.
Proof.
  revert w. induction ops as [|o ops IH]; intros w; [simpl; lia|].
  rewrite execs_cons. etransitivity; [apply (exec_releases o)|apply IH].
Qed.

Lemma execs_keeps_back k ops (w : world D) h l :
  memory_pool_ (mgr w) !! k = Some (l ++ [h]) ->
  Forall (fun o => touches k o = false) ops ->
  releases (log (execs ops w)) = releases (log w) ->
  exists l', memory_pool_ (mgr (execs ops w)) !! k = Some (l' ++ [last_freed k ops h]).
Proof.
  revert w h l. induction ops as [|o ops IH]; intros w h l Hk Hops Hrel.
  - exists l. exact Hk.
  - apply Forall_cons in Hops as [Ho Hops]. rewrite execs_cons in Hrel |- *.
    pose proof (exec_releases o w) as H1.
    pose proof (execs_releases ops (exec o w)) as H2.
    destruct (exec_bucket k o w) as (ev & Hlog & Hbucket).
    assert (Hev : releases ev = 0%nat).
    { rewrite Hlog, releases_app in H2. lia. }
    specialize (Hbucket Ho Hev).
    assert (Hrel' : releases (log (execs ops (exec o w))) = releases (log (exec o w))) by lia.
    destruct o as [raw|p raw|p raw|]; unfold last_freed; cbn [foldl];
      try (apply (IH _ h l); [rewrite Hbucket; exact Hk|assumption|assumption]).
    destruct (bucket_key raw =? k) eqn:Hkey.
    + apply (IH _ p (l ++ [h])); [|assumption|assumption].
      rewrite Hbucket, Hk. reflexivity.
    + apply (IH _ h l); [rewrite Hbucket; exact Hk|assumption|assumption].
Qed.

(** C4.  After [Free(h, S)], and then any calls that are not an [Alloc] of
    the same bucket and enter no [ReleaseAll], [Alloc(S)] returns the
    pointer freed last into that bucket, pops it, calls no device function
    and leaves the counter as it was. *)
Theorem Alloc_reuses_last_freed h raw_size (mid : list op) (w : world D) :
  Forall (fun o => touches (bucket_key raw_size) o = false) mid ->
  releases (log (execs mid (Free h raw_size w))) = releases (log w) ->
  exists l,
    memory_pool_ (mgr (execs mid (Free h raw_size w))) !! bucket_key raw_size
    = Some (l ++ [last_freed (bucket_key raw_size) mid h])
    /\ Alloc raw_size (execs mid (Free h raw_size w))
       = Ok (last_freed (bucket_key raw_size) mid h)
            (mkWorld (set_pool (<[bucket_key raw_size := l]>
                                  (memory_pool_ (mgr (execs mid (Free h raw_size w)))))
                               (mgr (execs mid (Free h raw_size w))))
                     (dev (execs mid (Free h raw_size w)))
                     (log (execs mid (Free h raw_size w))))
    /\ used_memory_ (mgr (world_of (Alloc raw_size (execs mid (Free h raw_size w)))))
       = used_memory_ (mgr (execs mid (Free h raw_size w)))
    /\ log (world_of (Alloc raw_size (execs mid (Free h raw_size w))))
       = log (execs mid (Free h raw_size w)).
Proof.
  intros Hmid Hrel.
  destruct (execs_keeps_back (bucket_key raw_size) mid (Free h raw_size w) h
              (default [] (memory_pool_ (mgr w) !! bucket_key raw_size)))
    as [l Hl]; [|assumption|exact Hrel|].
  { unfold Free. simpl. fold (bucket_key raw_size). now rewrite lookup_insert_eq. }
  exists l. split; [exact Hl|].
  assert (Hr : reusable (bucket_key raw_size) (mgr (execs mid (Free h raw_size w)))
               = Some (l ++ [last_freed (bucket_key raw_size) mid h])).
  { apply reusable_lookup; [exact Hl|]. destruct l; discriminate. }
  rewrite (Alloc_hit _ _ _ Hr), last_last, removelast_last.
  repeat split.
Qed.

Lemma pushed_by_weaken ops o pool : pushed_by ops pool -> pushed_by (ops ++ [o]) pool.
Proof.
  intros Hp k l p Hk Hin. destruct (Hp k l p Hk Hin) as (raw & Hraw & Hkey).
  exists raw. split; [apply in_or_app; now left|assumption].
Qed.

Lemma pushed_by_empty ops : pushed_by ops ∅.
Proof. intros k l p Hk. rewrite lookup_empty in Hk. discriminate. Qed.

Lemma In_removelast (l : list Z) p : List.In p (removelast l) -> List.In p l.
Proof.
  destruct l as [|a l] using rev_ind; [auto|].
  rewrite removelast_last. intros Hin. apply in_or_app. now left.
Qed.

Lemma exec_pushed_by ops o (w : world D) :
  pushed_by ops (memory_pool_ (mgr w)) ->
  pushed_by (ops ++ [o]) (memory_pool_ (mgr (exec o w))).
Proof.
  intros Hp. destruct o as [raw_size|p raw_size|p raw_size|]; cbn [exec].
  - destruct (reusable (bucket_key raw_size) (mgr w)) as [l|] eqn:Hr.
    + rewrite (Alloc_hit _ _ _ Hr). simpl. intros k l' q Hk Hin.
      apply reusable_Some in Hr as [Hl _].
      destruct (Z.eq_dec (bucket_key raw_size) k) as [<-|Hne].
      * rewrite lookup_insert_eq in Hk. injection Hk as <-.
        apply In_removelast in Hin.
        now apply (pushed_by_weaken _ _ _ Hp _ l).
      * rewrite lookup_insert_ne in Hk by assumption.
        now apply (pushed_by_weaken _ _ _ Hp _ l').
    + rewrite (Alloc_miss _ _ Hr), native_alloc_pool.
      destruct (flush_policy_mgr (bucket_key raw_size) w) as [-> | ->].
      * now apply pushed_by_weaken.
      * apply pushed_by_empty.
  - simpl. fold (bucket_key raw_size). intros k l q Hk Hin.
    destruct (Z.eq_dec (bucket_key raw_size) k) as [<-|Hne].
    + rewrite lookup_insert_eq in Hk. injection Hk as <-.
      apply in_app_or in Hin as [Hin|[<-|[]]].
      * destruct (memory_pool_ (mgr w) !! bucket_key raw_size) as [l0|] eqn:Hl0;
          [|contradiction].
        now apply (pushed_by_weaken _ _ _ Hp _ l0).
      * exists raw_size. split; [apply in_or_app; right; now left|reflexivity].
    + rewrite lookup_insert_ne in Hk by assumption.
      now apply (pushed_by_weaken _ _ _ Hp _ l).
  - rewrite DirectFree_mgr. now apply pushed_by_weaken.
  - apply pushed_by_empty.
Qed.

Lemma execs_pushed_by ops env (d : D) :
  pushed_by ops
    (memory_pool_ (mgr (execs ops (mkWorld (GPUPooledStorageManager env) d [])))).
Proof.
  induction ops as [|o ops IH] using rev_ind.
  - apply pushed_by_empty.
  - unfold execs. rewrite foldl_app. simpl. now apply exec_pushed_by.
Qed.

Lemma bucket_key_inj S1 S2 :
  bucket_key S1 = bucket_key S2 <-> to_size_t S1 = to_size_t S2.
Proof.
  unfold bucket_key. rewrite <- (size_add_idem_l S1), <- (size_add_idem_l S2).
  split; [|now intros ->].
  pose proof (to_size_t_range S1). pose proof (to_size_t_range S2).
  unfold size_add, to_size_t at 1 3. intros Heq.
  assert (Hm : (to_size_t S1 + NDEV - (to_size_t S2 + NDEV)) mod SIZE_MOD = 0).
  { rewrite Zminus_mod, Heq, Z.sub_diag. reflexivity. }
  replace (to_size_t S1 + NDEV - (to_size_t S2 + NDEV))
    with (to_size_t S1 - to_size_t S2) in Hm by lia.
  apply Z.mod_divide in Hm; [|discriminate]. destruct Hm as [q Hq].
  assert (q = 0) by nia. lia.
Qed.

(** C5.  Equal raw sizes give equal bucket keys (and only sizes equal as
    [size_t] do).  A [Free] under another key does not change what
    [Alloc(S1)] finds: on the hit path it returns a pointer that was idle
    in the bucket of its own key before that [Free], and the pointer just
    freed stays at the back of its own bucket; on the miss path the
    pointer comes from [hipMalloc].  In any run from the constructor, the
    pointer a hit returns was pushed by a [Free] under the same key. *)
Theorem no_cross_bucket_reuse h S1 S2 (w : world D) :
  (S1 = S2 -> bucket_key S1 = bucket_key S2)
  /\ (bucket_key S1 = bucket_key S2 <-> to_size_t S1 = to_size_t S2)
  /\ (bucket_key S1 <> bucket_key S2 ->
      reusable (bucket_key S1) (mgr (Free h S2 w)) = reusable (bucket_key S1) (mgr w)
      /\ (forall l, reusable (bucket_key S1) (mgr w) = Some l ->
          exists w',
            Alloc S1 (Free h S2 w) = Ok (List.last l nullptr) w'
            /\ List.In (List.last l nullptr) l
            /\ memory_pool_ (mgr w') !! bucket_key S2
               = Some (default [] (memory_pool_ (mgr w) !! bucket_key S2) ++ [h]))
      /\ (reusable (bucket_key S1) (mgr w) = None ->
          Alloc S1 (Free h S2 w)
          = native_alloc (bucket_key S1) (flush_policy (bucket_key S1) (Free h S2 w))))
  /\ (forall ops env d l,
      reusable (bucket_key S1) (mgr (execs ops (mkWorld (GPUPooledStorageManager env) d [])))
      = Some l ->
      exists w' raw_size,
        Alloc S1 (execs ops (mkWorld (GPUPooledStorageManager env) d []))
        = Ok (List.last l nullptr) w'
        /\ List.In (OpFree (List.last l nullptr) raw_size) ops
        /\ bucket_key raw_size = bucket_key S1).
Proof.
  split; [now intros ->|]. split; [apply bucket_key_inj|]. split.
  - intros Hne.
    assert (Hsame : reusable (bucket_key S1) (mgr (Free h S2 w))
                    = reusable (bucket_key S1) (mgr w)).
    { unfold reusable, Free. simpl. fold (bucket_key S2).
      rewrite lookup_insert_ne by congruence. reflexivity. }
    split; [exact Hsame|]. split.
    + intros l Hl. rewrite <- Hsame in Hl. rewrite (Alloc_hit _ _ _ Hl).
      eexists. split; [reflexivity|]. split.
      * apply reusable_Some in Hl as [_ Hnil].
        destruct (exists_last Hnil) as (l' & a & ->).
        rewrite last_last. apply in_or_app. right. now left.
      * simpl. fold (bucket_key S2). rewrite lookup_insert_ne by assumption.
        now rewrite lookup_insert_eq.
    + intros Hnone. rewrite <- Hsame in Hnone. now apply Alloc_miss.
  - intros ops env d l Hl. rewrite (Alloc_hit _ _ _ Hl).
    apply reusable_Some in Hl as [Hk Hnil].
    destruct (execs_pushed_by ops env d (bucket_key S1) l (List.last l nullptr) Hk)
      as (raw & Hin & Hkey).
    { destruct (exists_last Hnil) as (l' & a & ->).
      rewrite last_last. apply in_or_app. right. now left. }
    eexists. exists raw. split; [reflexivity|]. split; assumption.
Qed.

End Reuse.

(** ** Accounting *)

Lemma bucket_sum_perm (l1 l2 : list (Z * list Z)) :
  l1 ≡ₚ l2 ->
  foldr (fun i acc => bucket_bytes i + acc) 0 l1
  = foldr (fun i acc => bucket_bytes i + acc) 0 l2.
Proof. induction 1; simpl; lia. Qed.

Lemma pooled_bytes_empty : pooled_bytes ∅ = 0.
Proof. unfold pooled_bytes. now rewrite map_to_list_empty. Qed.

Lemma pooled_bytes_insert_fresh (pool : gmap Z (list Z)) k l :
  pool !! k = None ->
  pooled_bytes (<[k := l]> pool) = k * Z.of_nat (length l) + pooled_bytes pool.
Proof.
  intros Hk. unfold pooled_bytes.
  rewrite (bucket_sum_perm _ _ (map_to_list_insert pool k l Hk)). reflexivity.
Qed.

Lemma pooled_bytes_insert (pool : gmap Z (list Z)) k l :
  pooled_bytes (<[k := l]> pool)
  = pooled_bytes pool
    - k * Z.of_nat (length (default [] (pool !! k))) + k * Z.of_nat (length l).
Proof.
  destruct (pool !! k) as [l0|] eqn:Hk; simpl.
  - rewrite <- insert_delete_eq.
    rewrite pooled_bytes_insert_fresh by apply lookup_delete_eq.
    unfold pooled_bytes at 2.
    rewrite <- (bucket_sum_perm _ _ (map_to_list_delete pool k l0 Hk)).
    simpl. unfold bucket_bytes at 1. simpl. fold (pooled_bytes (delete k pool)). lia.
  - rewrite pooled_bytes_insert_fresh by assumption. lia.
Qed.

Lemma take_out_bytes e L L' :
  take_out e L = Some L' -> ledger_bytes L' = ledger_bytes L - snd e.
Proof.
  revert L'. induction L as [|x L IH]; intros L'; simpl; [discriminate|].
  destruct (entry_eqb e x) eqn:He.
  - intros [= <-]. unfold entry_eqb in He.
    apply andb_prop in He as [_ He]. apply Z.eqb_eq in He. lia.
  - destruct (take_out e L) as [L''|]; [|discriminate].
    intros [= <-]. simpl. rewrite (IH L'' eq_refl). lia.
Qed.

Section Accounting.
Context {D : Type} `{HipRuntime D}.

Lemma accounted_range held m : accounted held m -> 0 <= used_memory_ m < SIZE_MOD.
Proof. unfold accounted. intros ->. apply to_size_t_range. Qed.

Lemma ReleaseAll_accounted held (w : world D) :
  accounted held (mgr w) -> accounted held (mgr (ReleaseAll w)).
Proof.
  intros Hacc. pose proof (ReleaseAll_range w (accounted_range _ _ Hacc)) as Hr.
  unfold accounted. rewrite ReleaseAll_pool, pooled_bytes_empty.
  rewrite <- (to_size_t_small _ Hr), ReleaseAll_used, Hacc, size_sub_idem_l.
  unfold size_sub. f_equal. lia.
Qed.

Lemma flush_policy_accounted held size (w : world D) :
  accounted held (mgr w) -> accounted held (mgr (flush_policy size w)).
Proof.
  intros Hacc. destruct (flush_policy_mgr size w) as [-> | ->]; [assumption|].
  now apply ReleaseAll_accounted.
Qed.

Lemma Alloc_accounted held raw_size (w : world D) :
  bucket_key raw_size <= MAX_SPACE ->
  accounted held (mgr w) ->
  match Alloc raw_size w with
  | Ok _ w' => accounted (bucket_key raw_size + held) (mgr w')
  | Fatal _ w' => accounted held (mgr w')
  end.
Proof.
  intros Hsmall Hacc.
  destruct (reusable (bucket_key raw_size) (mgr w)) as [l|] eqn:Hr.
  - rewrite (Alloc_hit _ _ _ Hr). apply reusable_Some in Hr as [Hk Hnil].
    unfold accounted in *. simpl. rewrite pooled_bytes_insert, Hk, Hacc. simpl.
    destruct (exists_last Hnil) as (l' & a & ->).
    rewrite removelast_last, length_app. simpl. f_equal. lia.
  - rewrite (Alloc_miss _ _ Hr), native_alloc_cases.
    pose proof (flush_policy_accounted held (bucket_key raw_size) w Hacc) as Hacc1.
    rewrite (proj1 (native_size_cases _) Hsmall).
    destruct (hip_failed _); [exact Hacc1|].
    unfold accounted in *. simpl. rewrite Hacc1, size_add_idem_l.
    unfold size_add. f_equal. lia.
Qed.

Lemma Free_accounted held p raw_size (w : world D) :
  accounted held (mgr w) ->
  accounted (held - bucket_key raw_size) (mgr (Free p raw_size w)).
Proof.
  unfold accounted. intros Hacc. simpl. fold (bucket_key raw_size).
  rewrite pooled_bytes_insert, length_app, Hacc. simpl. f_equal. lia.
Qed.

Lemma DirectFree_accounted held p raw_size (w : world D) :
  accounted held (mgr w) ->
  accounted (held - bucket_key raw_size) (mgr (DirectFree p raw_size w)).
Proof.
  unfold accounted. intros Hacc. rewrite DirectFree_mgr. simpl.
  rewrite Hacc, size_sub_idem_l. unfold size_sub. f_equal. lia.
Qed.

Lemma step_accounted o (w w' : world D) L L' :
  small_request o ->
  step o (w, L) = Some (w', L') ->
  accounted (ledger_bytes L) (mgr w) -> accounted (ledger_bytes L') (mgr w').
Proof.
  intros Hsmall Hstep Hacc. destruct o as [raw|p raw|p raw|]; simpl in Hstep.
  - pose proof (Alloc_accounted _ raw w Hsmall Hacc) as Ha.
    destruct (Alloc raw w) as [q w1|msg w1]; injection Hstep as <- <-; exact Ha.
  - destruct (take_out (p, bucket_key raw) L) as [L1|] eqn:Ht; [|discriminate].
    injection Hstep as <- <-. rewrite (take_out_bytes _ _ _ Ht).
    now apply Free_accounted.
  - destruct (take_out (p, bucket_key raw) L) as [L1|] eqn:Ht; [|discriminate].
    injection Hstep as <- <-. rewrite (take_out_bytes _ _ _ Ht).
    now apply DirectFree_accounted.
  - injection Hstep as <- <-. now apply ReleaseAll_accounted.
Qed.

Lemma run_accounted ops (w w' : world D) L L' :
  Forall small_request ops ->
  run ops (w, L) = Some (w', L') ->
  accounted (ledger_bytes L) (mgr w) -> accounted (ledger_bytes L') (mgr w').
Proof.
  revert w L. induction ops as [|o ops IH]; intros w L Hsmall Hrun Hacc.
  - simpl in Hrun. injection Hrun as <- <-. assumption.
  - apply Forall_cons in Hsmall as [Ho Hsmall]. cbn [run] in Hrun.
    destruct (step o (w, L)) as [[w1 L1]|] eqn:Hstep; [|discriminate].
    apply (IH w1 L1 Hsmall Hrun). now apply (step_accounted o w w1 L L1).
Qed.

(** C2 (as amended).  For a caller that frees only pointers it holds,
    under the size it requested them with, and requests bucket keys of at
    most 2147483647: after any sequence of calls the counter is the sum,
    in [size_t] arithmetic, of the bucket keys of the pointers out with the
    caller and of those idle in the pool; after a [ReleaseAll] the pool is
    empty and the counter is the sum over the pointers still out with the
    caller, zero when there are none. *)
Theorem used_memory_accounting ops env (d : D) (w : world D) L :
  Forall small_request ops ->
  run ops (mkWorld (GPUPooledStorageManager env) d [], []) = Some (w, L) ->
  used_memory_ (mgr w)
  = to_size_t (ledger_bytes L + pooled_bytes (memory_pool_ (mgr w)))
  /\ (0 <= ledger_bytes L + pooled_bytes (memory_pool_ (mgr w)) < SIZE_MOD ->
      used_memory_ (mgr w) = ledger_bytes L + pooled_bytes (memory_pool_ (mgr w)))
  /\ memory_pool_ (mgr (ReleaseAll w)) = ∅
  /\ used_memory_ (mgr (ReleaseAll w)) = to_size_t (ledger_bytes L)
  /\ (L = [] -> used_memory_ (mgr (ReleaseAll w)) = 0).
Proof.
  intros Hsmall Hrun.
  assert (Hacc : accounted (ledger_bytes L) (mgr w)).
  { apply (run_accounted ops _ w [] L Hsmall Hrun).
    unfold accounted. simpl. now rewrite pooled_bytes_empty. }
  pose proof (ReleaseAll_accounted _ w Hacc) as Hrel.
  unfold accounted in Hrel. rewrite ReleaseAll_pool, pooled_bytes_empty, Z.add_0_r in Hrel.
  split; [exact Hacc|]. split; [intros Hfit; rewrite Hacc; now apply to_size_t_small|].
  split; [reflexivity|]. split; [exact Hrel|].
  intros ->. rewrite Hrel. reflexivity.
Qed.

End Accounting.

(** ** Concrete runs on the scripted device *)

Ltac size_bound := unfold SIZE_MOD, SIZE_WIDTH, MAX_SPACE, NDEV in *; vm_compute; intuition discriminate.

(** On a miss for a request of 64 bytes the device is asked for 96. *)
Lemma Alloc_native_size_witness :
  native_size (bucket_key 64) = bucket_key 64
  /\ log (world_of (Alloc 64 (Sim.boot Sim.no_env Sim.roomy)))
     = log (flush_policy (bucket_key 64) (Sim.boot Sim.no_env Sim.roomy))
       ++ [CallMalloc (native_size (bucket_key 64))].
Proof.
  destruct (Alloc_native_size 64 (Sim.boot Sim.no_env Sim.roomy)) as [Hmiss _].
  destruct (Hmiss eq_refl) as (Hlog & _ & Hsmall & _).
  split; [apply Hsmall; size_bound | exact Hlog].
Defined.

(** C1, as stated, fails: a request of 2 GiB succeeds with a device buffer
    of 4 MiB. *)
Lemma Alloc_smaller_than_requested :
  is_fatal (Alloc (2 ^ 31) (Sim.boot Sim.no_env Sim.roomy)) = false
  /\ log (world_of (Alloc (2 ^ 31) (Sim.boot Sim.no_env Sim.roomy)))
     = [CallMemGetInfo; CallReleaseAll; CallMalloc 4194304]
  /\ bucket_key (2 ^ 31) = 2147483680
  /\ 4194304 < bucket_key (2 ^ 31).
Proof. repeat split. Qed.

Lemma used_memory_accounting_witness :
  match run [OpAlloc 64; OpFree 4096 64; OpAlloc 64; OpAlloc 10; OpFree 8192 10]
            (Sim.boot Sim.no_env Sim.roomy, []) with
  | Some (w, L) =>
      used_memory_ (mgr w)
      = to_size_t (ledger_bytes L + pooled_bytes (memory_pool_ (mgr w)))
      /\ used_memory_ (mgr (ReleaseAll w)) = to_size_t (ledger_bytes L)
  | None => False
  end.
Proof.
  destruct (run [OpAlloc 64; OpFree 4096 64; OpAlloc 64; OpAlloc 10; OpFree 8192 10]
              (Sim.boot Sim.no_env Sim.roomy, [])) as [[w L]|] eqn:Hrun.
  - destruct (used_memory_accounting
                [OpAlloc 64; OpFree 4096 64; OpAlloc 64; OpAlloc 10; OpFree 8192 10]
                Sim.no_env Sim.roomy w L) as (Hused & _ & _ & Hrel & _).
    + repeat constructor; size_bound.
    + exact Hrun.
    + split; assumption.
  - vm_compute in Hrun. discriminate.
Defined.

(** C2, as stated, fails.  (1) With a pointer still out with the caller the
    counter is not zero after [ReleaseAll].  (2) For a key above 2147483647
    [Alloc] counts 4194304 and [ReleaseAll] discounts the key: nothing is
    held any more and the counter is not zero.  (3) A [DirectFree] of a
    pointer the manager never issued wraps the counter. *)
Lemma used_memory_not_zero_after_ReleaseAll :
  (exists w, run [OpAlloc 64; OpReleaseAll] (Sim.boot Sim.no_env Sim.roomy, [])
             = Some (w, [(4096, 96)])
             /\ used_memory_ (mgr w) = 96
             /\ memory_pool_ (mgr w) = ∅)
  /\ (exists w, run Sim.big_ops (Sim.boot Sim.no_env Sim.roomy, []) = Some (w, [])
                /\ used_memory_ (mgr w) = 18446744071566262240
                /\ memory_pool_ (mgr w) = ∅)
  /\ used_memory_ (mgr (execs [OpDirectFree 1 0] (Sim.boot Sim.no_env Sim.roomy)))
     = 18446744073709551584.
Proof.
  split; [|split].
  - eexists. split; [reflexivity|]. split; reflexivity.
  - eexists. split; [reflexivity|]. split; reflexivity.
  - reflexivity.
Qed.

(** The scenario of a device at its threshold: the idle block is freed
    before the allocation is tried. *)
Lemma Alloc_flushes_before_native_witness :
  Alloc 50 (Sim.parked (Sim.env_of 10) Sim.tight)
  = native_alloc (bucket_key 50)
      (ReleaseAll (mkWorld (mgr (Sim.parked (Sim.env_of 10) Sim.tight))
                     (dev (Sim.parked (Sim.env_of 10) Sim.tight))
                     (log (Sim.parked (Sim.env_of 10) Sim.tight) ++ [CallMemGetInfo])))
  /\ (exists freed,
        log (world_of (Alloc 50 (Sim.parked (Sim.env_of 10) Sim.tight)))
        = log (Sim.parked (Sim.env_of 10) Sim.tight)
            ++ [CallMemGetInfo; CallReleaseAll]
            ++ map CallFree freed
            ++ [CallMalloc (native_size (bucket_key 50))]
        /\ freed ≡ₚ pooled_ptrs (memory_pool_ (mgr (Sim.parked (Sim.env_of 10) Sim.tight)))).
Proof.
  destruct (Alloc_flushes_before_native 50 (Sim.parked (Sim.env_of 10) Sim.tight)
              100 1000 (dev (Sim.parked (Sim.env_of 10) Sim.tight)))
    as (Heq & Hlog & _).
  - reflexivity.
  - reflexivity.
  - left. size_bound.
  - split; assumption.
Defined.

(** C3, as stated, fails.  With 1000 bytes free of [2 ^ 63] and a
    percentage of 2, the free capacity is far below [total * 2 / 100], yet
    the product wraps to 0 in [size_t], the threshold is 0, and a miss for
    10 bytes goes to [hipMalloc] with no [ReleaseAll]: the idle block stays
    in the pool. *)
Lemma Alloc_no_flush_below_exact_threshold :
  reusable (bucket_key 10) (mgr (Sim.parked (Sim.env_of 2) Sim.huge)) = None
  /\ hipMemGetInfo (dev (Sim.parked (Sim.env_of 2) Sim.huge))
     = ((1000, 2 ^ 63), dev (Sim.parked (Sim.env_of 2) Sim.huge))
  /\ reserve_ (mgr (Sim.parked (Sim.env_of 2) Sim.huge)) = 2
  /\ 1000 <= 2 ^ 63 * 2 / 100
  /\ reserve_threshold (2 ^ 63) 2 = 0
  /\ is_fatal (Alloc 10 (Sim.parked (Sim.env_of 2) Sim.huge)) = false
  /\ log (world_of (Alloc 10 (Sim.parked (Sim.env_of 2) Sim.huge)))
     = log (Sim.parked (Sim.env_of 2) Sim.huge)
         ++ [CallMemGetInfo; CallMalloc 42]
  /\ releases (log (world_of (Alloc 10 (Sim.parked (Sim.env_of 2) Sim.huge)))) = 0%nat
  /\ memory_pool_ (mgr (world_of (Alloc 10 (Sim.parked (Sim.env_of 2) Sim.huge))))
       !! bucket_key 64 = Some [4096].
Proof. repeat split. vm_compute. discriminate. Qed.

(** The same on a device of 16 GiB with the percentage [2 ^ 30], which the
    constructor accepts: the product is [2 ^ 64] and wraps to 0. *)
Lemma Alloc_no_flush_wrapped_percentage :
  1000 <= 2 ^ 34 * 2 ^ 30 / 100
  /\ reserve_threshold (2 ^ 34) (2 ^ 30) = 0
  /\ need_flush 1000 (2 ^ 34) (2 ^ 30) 42 = false.
Proof. repeat split. vm_compute. discriminate. Qed.

Lemma Alloc_flushes_before_native_run :
  log (world_of (Alloc 50 (Sim.parked (Sim.env_of 10) Sim.tight)))
  = [CallMemGetInfo; CallReleaseAll; CallMalloc 96;
     CallMemGetInfo; CallReleaseAll; CallFree 4096; CallMalloc 82].
Proof. reflexivity. Qed.

Lemma Alloc_reuses_last_freed_witness :
  exists l,
    memory_pool_ (mgr (execs [OpAlloc 10; OpFree 8192 10]
                         (Free 4096 64 (execs [OpAlloc 64] (Sim.boot Sim.no_env Sim.roomy)))))
      !! bucket_key 64 = Some (l ++ [4096])
    /\ Alloc 64 (execs [OpAlloc 10; OpFree 8192 10]
                   (Free 4096 64 (execs [OpAlloc 64] (Sim.boot Sim.no_env Sim.roomy))))
       = Ok 4096
           (mkWorld
              (set_pool (<[bucket_key 64 := l]>
                 (memory_pool_ (mgr (execs [OpAlloc 10; OpFree 8192 10]
                    (Free 4096 64 (execs [OpAlloc 64] (Sim.boot Sim.no_env Sim.roomy)))))))
                 (mgr (execs [OpAlloc 10; OpFree 8192 10]
                    (Free 4096 64 (execs [OpAlloc 64] (Sim.boot Sim.no_env Sim.roomy))))))
              (dev (execs [OpAlloc 10; OpFree 8192 10]
                 (Free 4096 64 (execs [OpAlloc 64] (Sim.boot Sim.no_env Sim.roomy)))))
              (log (execs [OpAlloc 10; OpFree 8192 10]
                 (Free 4096 64 (execs [OpAlloc 64] (Sim.boot Sim.no_env Sim.roomy)))))).
Proof.
  destruct (Alloc_reuses_last_freed 4096 64 [OpAlloc 10; OpFree 8192 10]
              (execs [OpAlloc 64] (Sim.boot Sim.no_env Sim.roomy)))
    as (l & Hl & Halloc & _).
  - repeat constructor.
  - reflexivity.
  - exists l. split; [exact Hl | exact Halloc].
Defined.

(** The scenario of the specification: the second [Alloc(64)] returns the
    pointer of the first, with no device call in between. *)
Lemma Alloc_Free_Alloc_run :
  Alloc 64 (Sim.parked Sim.no_env Sim.roomy)
  = Ok 4096 (execs [OpAlloc 64; OpFree 4096 64; OpAlloc 64] (Sim.boot Sim.no_env Sim.roomy))
  /\ log (execs [OpAlloc 64; OpFree 4096 64; OpAlloc 64] (Sim.boot Sim.no_env Sim.roomy))
     = [CallMemGetInfo; CallMalloc 96]
  /\ used_memory_ (mgr (execs [OpAlloc 64; OpFree 4096 64; OpAlloc 64]
                          (Sim.boot Sim.no_env Sim.roomy))) = 96.
Proof. repeat split. Qed.

Lemma no_cross_bucket_reuse_witness :
  exists w',
    Alloc 64 (Free 8192 10 (Sim.parked Sim.no_env Sim.roomy)) = Ok 4096 w'
    /\ List.In 4096 [4096]
    /\ memory_pool_ (mgr w') !! bucket_key 10 = Some [8192].
Proof.
  destruct (no_cross_bucket_reuse 8192 64 10 (Sim.parked Sim.no_env Sim.roomy))
    as (_ & _ & Hframe & _).
  destruct Hframe as (_ & Hhit & _); [size_bound|].
  exact (Hhit [4096] eq_refl).
Defined.

Lemma Alloc_fatal_iff_witness :
  mgr (world_of (Alloc 50 (Sim.parked (Sim.env_of 10) Sim.tight)))
  = mgr (flush_policy (bucket_key 50) (Sim.parked (Sim.env_of 10) Sim.tight))
  /\ log (world_of (Alloc 50 (Sim.parked (Sim.env_of 10) Sim.tight)))
     = log (flush_policy (bucket_key 50) (Sim.parked (Sim.env_of 10) Sim.tight))
       ++ [CallMalloc (native_size (bucket_key 50))].
Proof.
  destruct (Alloc_fatal_iff 50 (Sim.parked (Sim.env_of 10) Sim.tight)) as [_ Hstate].
  destruct (Hstate eq_refl) as (Hmgr & _ & Hlog).
  split; assumption.
Defined.

(** C6, as stated, fails: when the flush policy has run [ReleaseAll], a
    failed [Alloc] leaves the pool emptied and the counter decremented. *)
Lemma Alloc_failure_after_flush_changes_state :
  is_fatal (Alloc 50 (Sim.parked (Sim.env_of 10) Sim.tight)) = true
  /\ used_memory_ (mgr (Sim.parked (Sim.env_of 10) Sim.tight)) = 96
  /\ memory_pool_ (mgr (Sim.parked (Sim.env_of 10) Sim.tight)) !! 96 = Some [4096]
  /\ used_memory_ (mgr (world_of (Alloc 50 (Sim.parked (Sim.env_of 10) Sim.tight)))) = 0
  /\ memory_pool_ (mgr (world_of (Alloc 50 (Sim.parked (Sim.env_of 10) Sim.tight)))) !! 96
     = None
  /\ mgr (world_of (Alloc 50 (Sim.parked (Sim.env_of 10) Sim.tight)))
     <> mgr (Sim.parked (Sim.env_of 10) Sim.tight).
Proof.
  repeat split. intros Heq. apply (f_equal used_memory_) in Heq.
  vm_compute in Heq. discriminate.
Qed.

(** A [hipFree] that reports an error: the counter goes from 96 to 0 all
    the same. *)
Lemma DirectFree_decrements_regardless_witness :
  used_memory_ (mgr (DirectFree 4096 64 (mkWorld (mkManager 96 5 ∅) Sim.stubborn []))) = 0
  /\ log (DirectFree 4096 64 (mkWorld (mkManager 96 5 ∅) Sim.stubborn [])) = [CallFree 4096].
Proof.
  destruct (DirectFree_decrements_regardless 4096 64
              (mkWorld (mkManager 96 5 ∅) Sim.stubborn [])
              hipErrorUnknown Sim.stubborn) as (Heq & _ & Hexact); [reflexivity|].
  split.
  - rewrite Hexact; [reflexivity | lia | size_bound].
  - rewrite Heq. reflexivity.
Defined.

Lemma ReleaseAll_idempotent_witness :
  used_memory_ (mgr (ReleaseAll (mkWorld (mkManager 96 5 {[96 := []]}) Sim.roomy []))) = 96
  /\ device_calls (log (ReleaseAll (mkWorld (mkManager 96 5 {[96 := []]}) Sim.roomy []))) = [].
Proof.
  destruct (ReleaseAll_idempotent (mkWorld (mkManager 96 5 {[96 := []]}) Sim.roomy []))
    as (_ & _ & _ & _ & Hidle).
  destruct Hidle as (Hused & _ & Hcalls).
  - intros k l Hk. simpl in Hk. apply lookup_singleton_Some in Hk as [_ <-]. reflexivity.
  - split; [exact Hused | exact Hcalls].
Defined.

(** Two [ReleaseAll] in a row on a pool with two idle blocks: each block is
    freed once, by the first one. *)
Lemma ReleaseAll_twice_run :
  (exists freed,
     log (execs [OpAlloc 64; OpFree 4096 64; OpAlloc 10; OpFree 8192 10;
                 OpReleaseAll; OpReleaseAll] (Sim.boot Sim.no_env Sim.roomy))
     = [CallMemGetInfo; CallMalloc 96; CallMemGetInfo; CallMalloc 42; CallReleaseAll]
         ++ map CallFree freed ++ [CallReleaseAll]
     /\ freed ≡ₚ [4096; 8192])
  /\ used_memory_ (mgr (execs [OpAlloc 64; OpFree 4096 64; OpAlloc 10; OpFree 8192 10;
                               OpReleaseAll; OpReleaseAll]
                          (Sim.boot Sim.no_env Sim.roomy))) = 0.
Proof.
  split; [|reflexivity].
  exists [8192; 4096]. split; [reflexivity|apply perm_swap].
Qed.

(** ** Further properties of the manager *)

Section Further.
Context {D : Type} `{HipRuntime D}.

Lemma In_pooled_ptrs (pool : gmap Z (list Z)) p :
  List.In p (pooled_ptrs pool) <-> exists k l, pool !! k = Some l /\ List.In p l.
Proof.
  unfold pooled_ptrs. rewrite in_concat. split.
  - intros (l & Hl & Hp). apply in_map_iff in Hl as ([k l'] & <- & Hkl).
    exists k, l'. split; [|exact Hp].
    apply elem_of_map_to_list, list_elem_of_In. exact Hkl.
  - intros (k & l & Hk & Hp). exists l. split; [|exact Hp].
    apply in_map_iff. exists (k, l). split; [reflexivity|].
    apply list_elem_of_In, elem_of_map_to_list. exact Hk.
Qed.

(** X1.  The destructor passes to [hipFree] the pointers that are idle in
    the pool and no other pointer (a pointer still out with a caller is
    not freed), leaves the pool empty, and makes no other device call. *)
Theorem destructor_frees_idle_only (w : world D) :
  exists freed,
    log (destroy w) = log w ++ CallReleaseAll :: map CallFree freed
    /\ (forall p, List.In p freed <->
                  exists k l, memory_pool_ (mgr w) !! k = Some l /\ List.In p l)
    /\ memory_pool_ (mgr (destroy w)) = ∅
    /\ (forall k, reusable k (mgr (destroy w)) = None).
Proof.
  exists (pooled_ptrs (memory_pool_ (mgr w))). unfold destroy.
  split; [apply ReleaseAll_log|]. split; [apply In_pooled_ptrs|].
  split; [reflexivity|].
  intros k. unfold reusable. rewrite ReleaseAll_pool, lookup_empty. reflexivity.
Qed.

Lemma world_eta (w : world D) :
  mkWorld (mkManager (used_memory_ (mgr w)) (reserve_ (mgr w)) (memory_pool_ (mgr w)))
          (dev w) (log w) = w.
Proof. destruct w as [[u r p] d l]. reflexivity. Qed.

(** X2.  A hit followed by [Free] of the pointer it returned, under the
    same size, puts the whole state back: manager, device and log. *)
Theorem Alloc_hit_then_Free_restores raw_size (w : world D) l :
  reusable (bucket_key raw_size) (mgr w) = Some l ->
  Free (List.last l nullptr) raw_size (world_of (Alloc raw_size w)) = w.
Proof.
  intros Hr. rewrite (Alloc_hit _ _ _ Hr). apply reusable_Some in Hr as [Hk Hnil].
  unfold Free. simpl. fold (bucket_key raw_size).
  rewrite lookup_insert_eq. simpl.
  rewrite <- (app_removelast_last nullptr Hnil).
  rewrite insert_insert_eq, (insert_id _ _ _ Hk).
  unfold set_pool. simpl. apply world_eta.
Qed.

(** X3.  When the hit takes the only idle pointer of a bucket, the bucket
    stays in the map with an empty vector, and the next [Alloc] of that
    size is a miss that goes to the device. *)
Theorem Alloc_drains_bucket raw_size (w : world D) p :
  memory_pool_ (mgr w) !! bucket_key raw_size = Some [p] ->
  exists w',
    Alloc raw_size w = Ok p w'
    /\ memory_pool_ (mgr w') !! bucket_key raw_size = Some []
    /\ Alloc raw_size w'
       = native_alloc (bucket_key raw_size) (flush_policy (bucket_key raw_size) w').
Proof.
  intros Hk.
  assert (Hr : reusable (bucket_key raw_size) (mgr w) = Some [p]).
  { apply reusable_lookup; [exact Hk|discriminate]. }
  rewrite (Alloc_hit _ _ _ Hr). eexists. split; [reflexivity|].
  assert (Hempty : forall m : gmap Z (list Z),
             <[bucket_key raw_size := removelast [p]]> m !! bucket_key raw_size = Some []).
  { intros m. now rewrite lookup_insert_eq. }
  split; [simpl; apply Hempty|].
  apply Alloc_miss. apply reusable_None. right. simpl. apply Hempty.
Qed.

(** X4.  [DirectFree] does not look at the pool: a pointer that is idle in
    the pool and is passed to [DirectFree] stays there, and the next
    [Alloc] of its size hands it out after the device has freed it. *)
Theorem DirectFree_keeps_pointer_pooled p raw_size (w : world D) :
  exists w',
    Alloc raw_size (DirectFree p raw_size (Free p raw_size w)) = Ok p w'
    /\ log w' = log w ++ [CallFree p]
    /\ memory_pool_ (mgr (DirectFree p raw_size (Free p raw_size w)))
       = memory_pool_ (mgr (Free p raw_size w)).
Proof.
  assert (Hr : reusable (bucket_key raw_size)
                 (mgr (DirectFree p raw_size (Free p raw_size w)))
               = Some (default [] (memory_pool_ (mgr w) !! bucket_key raw_size) ++ [p])).
  { apply reusable_lookup.
    - rewrite DirectFree_mgr. unfold Free. simpl. fold (bucket_key raw_size).
      now rewrite lookup_insert_eq.
    - destruct (default [] _); discriminate. }
  rewrite (Alloc_hit _ _ _ Hr), last_last. eexists. split; [reflexivity|].
  split; [simpl; now rewrite DirectFree_log|].
  now rewrite DirectFree_mgr.
Qed.

Lemma with_bucket_id k l (w : world D) :
  memory_pool_ (mgr w) !! k = Some l -> with_bucket k l w = w.
Proof.
  intros Hk. unfold with_bucket, set_pool. rewrite (insert_id _ _ _ Hk).
  apply world_eta.
Qed.

Lemma Free_with_bucket p raw_size l (w : world D) :
  Free p raw_size (with_bucket (bucket_key raw_size) l w)
  = with_bucket (bucket_key raw_size) (l ++ [p]) w.
Proof.
  unfold Free, with_bucket. simpl. fold (bucket_key raw_size).
  rewrite lookup_insert_eq. simpl. unfold set_pool. simpl.
  now rewrite insert_insert_eq.
Qed.

Lemma Free_as_with_bucket p raw_size (w : world D) :
  Free p raw_size w
  = with_bucket (bucket_key raw_size)
      (default [] (memory_pool_ (mgr w) !! bucket_key raw_size) ++ [p]) w.
Proof. reflexivity. Qed.

Lemma frees_cons p ps raw_size (w : world D) :
  frees (p :: ps) raw_size w = frees ps raw_size (Free p raw_size w).
Proof. reflexivity. Qed.

Lemma frees_with_bucket ps raw_size l (w : world D) :
  frees ps raw_size (with_bucket (bucket_key raw_size) l w)
  = with_bucket (bucket_key raw_size) (l ++ ps) w.
Proof.
  revert l. induction ps as [|p ps IH]; intros l.
  - now rewrite app_nil_r.
  - rewrite frees_cons, Free_with_bucket, IH, <- app_assoc. reflexivity.
Qed.

Lemma Alloc_with_bucket p raw_size l (w : world D) :
  Alloc raw_size (with_bucket (bucket_key raw_size) (l ++ [p]) w)
  = Ok p (with_bucket (bucket_key raw_size) l w).
Proof.
  assert (Hr : reusable (bucket_key raw_size)
                 (mgr (with_bucket (bucket_key raw_size) (l ++ [p]) w))
               = Some (l ++ [p])).
  { apply reusable_lookup; [simpl; apply lookup_insert_eq|destruct l; discriminate]. }
  rewrite (Alloc_hit _ _ _ Hr), last_last, removelast_last.
  unfold with_bucket, set_pool. simpl. now rewrite insert_insert_eq.
Qed.

Lemma allocs_with_bucket qs raw_size l (w : world D) :
  allocs (length qs) raw_size (with_bucket (bucket_key raw_size) (l ++ qs) w)
  = Some (rev qs, with_bucket (bucket_key raw_size) l w).
Proof.
  induction qs as [|q qs IH] using rev_ind.
  - now rewrite app_nil_r.
  - rewrite length_app, Nat.add_1_r, app_assoc. cbn [allocs].
    rewrite Alloc_with_bucket, IH, rev_unit. reflexivity.
Qed.

(** X5.  Pointers given back with [Free] under one size come out of the
    following [Alloc]s of that size in reverse order, none of these calls
    fails or reaches the device, and afterwards every bucket holds the
    idle pointers it held before. *)
Theorem frees_then_allocs_reverse ps raw_size (w : world D) :
  exists w',
    allocs (length ps) raw_size (frees ps raw_size w) = Some (rev ps, w')
    /\ dev w' = dev w
    /\ log w' = log w
    /\ used_memory_ (mgr w') = used_memory_ (mgr w)
    /\ (forall k, default [] (memory_pool_ (mgr w') !! k)
                  = default [] (memory_pool_ (mgr w) !! k)).
Proof.
  destruct ps as [|p ps].
  - exists w. repeat split.
  - rewrite frees_cons, Free_as_with_bucket, frees_with_bucket, <- app_assoc.
    change ([p] ++ ps) with (p :: ps).
    rewrite allocs_with_bucket. eexists. split; [reflexivity|].
    repeat split. intros k. simpl.
    destruct (Z.eq_dec (bucket_key raw_size) k) as [<-|Hne].
    + now rewrite lookup_insert_eq.
    + now rewrite lookup_insert_ne.
Qed.

End Further.

Section FurtherFlush.
Context {D : Type} `{HipRuntime D}.

(** X6.  On a miss with free capacity above the threshold and a key that
    fits above it, [Alloc] makes two device calls, the query and the
    [hipMalloc], enters no [ReleaseAll], and leaves every idle pointer in
    the pool. *)
Theorem Alloc_miss_without_flush raw_size (w : world D) free total d1 :
  reusable (bucket_key raw_size) (mgr w) = None ->
  hipMemGetInfo (dev w) = ((free, total), d1) ->
  reserve_threshold (to_size_t total) (reserve_ (mgr w)) < to_size_t free ->
  bucket_key raw_size
  <= to_size_t free - reserve_threshold (to_size_t total) (reserve_ (mgr w)) ->
  log (world_of (Alloc raw_size w))
  = log w ++ [CallMemGetInfo; CallMalloc (native_size (bucket_key raw_size))]
  /\ memory_pool_ (mgr (world_of (Alloc raw_size w))) = memory_pool_ (mgr w)
  /\ (is_fatal (Alloc raw_size w) = false ->
      used_memory_ (mgr (world_of (Alloc raw_size w)))
      = size_add (used_memory_ (mgr w)) (native_size (bucket_key raw_size))).
Proof.
  intros Hmiss Hq Hthr Hfit.
  rewrite (Alloc_no_flush raw_size w free total d1 Hmiss Hq Hthr Hfit).
  rewrite native_alloc_log, native_alloc_pool. simpl.
  split; [now rewrite <- app_assoc|]. split; [reflexivity|].
  rewrite native_alloc_cases. simpl.
  destruct (hip_failed _); [discriminate|reflexivity].
Qed.

(** X7.  [ReleaseAll] lowers the counter by the bucket key times the number
    of idle pointers, summed over the buckets, in [size_t] arithmetic
    (also for keys below [NDEV], where [i.first - NDEV] wraps and
    [DirectFree] wraps back); the percentage is kept. *)
Theorem ReleaseAll_counter (w : world D) :
  0 <= used_memory_ (mgr w) < SIZE_MOD ->
  used_memory_ (mgr (ReleaseAll w))
  = size_sub (used_memory_ (mgr w)) (pooled_bytes (memory_pool_ (mgr w)))
  /\ reserve_ (mgr (ReleaseAll w)) = reserve_ (mgr w)
  /\ (0 <= pooled_bytes (memory_pool_ (mgr w)) <= used_memory_ (mgr w) ->
      used_memory_ (mgr (ReleaseAll w))
      = used_memory_ (mgr w) - pooled_bytes (memory_pool_ (mgr w))).
Proof.
  intros Hu.
  assert (Hused : used_memory_ (mgr (ReleaseAll w))
                  = size_sub (used_memory_ (mgr w)) (pooled_bytes (memory_pool_ (mgr w)))).
  { rewrite <- ReleaseAll_used. symmetry. apply to_size_t_small.
    now apply ReleaseAll_range. }
  split; [exact Hused|]. split; [apply ReleaseAll_reserve|].
  intros Hp. rewrite Hused. apply size_sub_exact; lia.
Qed.

Lemma concat_snd_perm (l1 l2 : list (Z * list Z)) :
  l1 ≡ₚ l2 -> concat (map snd l1) ≡ₚ concat (map snd l2).
Proof.
  induction 1 as [|x l l' _ IH|x y l|l l' l'' _ IH1 _ IH2]; simpl.
  - reflexivity.
  - now rewrite IH.
  - rewrite !app_assoc. apply Permutation_app_tail, Permutation_app_comm.
  - now rewrite IH1.
Qed.

(** X8.  The order in which the release loop visits the buckets, which
    [unordered_map] leaves open, does not matter: any order gives the
    counter [ReleaseAll] gives, keeps percentage and pool during the loop,
    and frees the same pointers. *)
Theorem ReleaseAll_order_irrelevant (order : list (Z * list Z)) (w : world D) :
  order ≡ₚ map_to_list (memory_pool_ (mgr w)) ->
  0 <= used_memory_ (mgr w) < SIZE_MOD ->
  used_memory_ (mgr (foldl release_bucket w order))
  = used_memory_ (mgr (ReleaseAll w))
  /\ reserve_ (mgr (foldl release_bucket w order)) = reserve_ (mgr w)
  /\ memory_pool_ (mgr (foldl release_bucket w order)) = memory_pool_ (mgr w)
  /\ (exists freed,
        log (foldl release_bucket w order) = log w ++ map CallFree freed
        /\ freed ≡ₚ pooled_ptrs (memory_pool_ (mgr w))).
Proof.
  intros Hperm Hu. split; [|split; [|split]].
  - rewrite <- (to_size_t_small _ (release_buckets_range order w Hu)).
    rewrite <- (to_size_t_small _ (ReleaseAll_range w Hu)).
    rewrite ReleaseAll_used, release_buckets_used. f_equal.
    unfold pooled_bytes. now apply bucket_sum_perm.
  - apply release_buckets_frame.
  - apply release_buckets_frame.
  - exists (concat (map snd order)). split; [apply release_buckets_log|].
    now apply concat_snd_perm.
Qed.

End FurtherFlush.

(** ** Further properties of the reserve check *)

(** X9.  For a percentage between 0 and 100 and a total below [2 ^ 64 / 100]
    the threshold is the exact quotient [total * reserve / 100], it is at
    most [total], and it grows with the percentage. *)
Theorem reserve_threshold_fraction total reserve reserve' :
  0 <= total -> total * 100 < SIZE_MOD ->
  0 <= reserve <= reserve' -> reserve' <= 100 ->
  reserve_threshold total reserve = total * reserve / 100
  /\ reserve_threshold total reserve <= total
  /\ reserve_threshold total reserve <= reserve_threshold total reserve'.
Proof.
  intros Ht Hfit Hr Hr'.
  assert (Hm : 100 < SIZE_MOD) by reflexivity.
  rewrite !reserve_threshold_exact by nia.
  split; [reflexivity|]. split.
  - apply Z.div_le_upper_bound; nia.
  - apply Z.div_le_mono; nia.
Qed.

(** X10.  When the product [total * reserve_] does not fit in 64 bits it
    wraps, and the threshold the check uses is strictly below
    [total * reserve_ / 100]. *)
Theorem reserve_threshold_overflow total reserve :
  0 <= total -> 0 <= reserve < SIZE_MOD -> SIZE_MOD <= total * reserve ->
  reserve_threshold total reserve < total * reserve / 100.
Proof.
  intros Ht Hr Hover. unfold reserve_threshold, size_mul.
  rewrite (to_size_t_small reserve) by assumption. unfold to_size_t.
  pose proof SIZE_MOD_pos as Hpos.
  assert (Hq : 1 <= (total * reserve) / SIZE_MOD).
  { apply Z.div_le_lower_bound; lia. }
  pose proof (Z.div_mod (total * reserve) SIZE_MOD ltac:(lia)) as Hdm.
  assert (Hle : (total * reserve) mod SIZE_MOD <= total * reserve - SIZE_MOD) by nia.
  apply Z.le_lt_trans with ((total * reserve - SIZE_MOD) / 100).
  - apply Z.div_le_mono; lia.
  - assert (H100 : 100 * 1 <= SIZE_MOD) by (unfold SIZE_MOD, SIZE_WIDTH; lia).
    replace (total * reserve) with ((total * reserve - SIZE_MOD) + SIZE_MOD) at 2 by lia.
    pose proof (Z.div_mod (total * reserve - SIZE_MOD) 100 ltac:(lia)) as Hd1.
    pose proof (Z.mod_pos_bound (total * reserve - SIZE_MOD) 100 ltac:(lia)) as Hb1.
    apply Z.div_lt_upper_bound; [lia|].
    pose proof (Z.div_mod (total * reserve - SIZE_MOD + SIZE_MOD) 100 ltac:(lia)) as Hd2.
    pose proof (Z.mod_pos_bound (total * reserve - SIZE_MOD + SIZE_MOD) 100 ltac:(lia)) as Hb2.
    lia.
Qed.

(** X11.  The flush decision is monotone: if a request flushes the pool,
    so does any larger request and so does the same request with less
    free capacity. *)
Theorem need_flush_monotone free free' total reserve size size' :
  0 <= free' <= free -> free < SIZE_MOD -> size <= size' ->
  need_flush free total reserve size = true ->
  need_flush free' total reserve size' = true.
Proof.
  intros Hf Hlt Hs Hflush.
  apply need_flush_spec in Hflush; [|lia].
  apply need_flush_spec; [lia|]. lia.
Qed.

(** X12.  With a percentage of 100 or more, which the constructor accepts,
    every miss flushes the pool as long as the device reports no more free
    than total capacity. *)
Theorem full_reserve_always_flushes free total reserve size :
  0 <= free <= total -> 100 <= reserve -> total * reserve < SIZE_MOD ->
  need_flush free total reserve size = true.
Proof.
  intros Hf Hr Hfit.
  assert (Hfree : 0 <= free < SIZE_MOD) by nia.
  apply need_flush_spec; [exact Hfree|]. left.
  destruct (Z.eq_dec total 0) as [->|Hne].
  - pose proof (reserve_threshold_range 0 reserve). lia.
  - rewrite reserve_threshold_exact by nia.
    apply Z.div_le_lower_bound; nia.
Qed.

(** ** RandGenerator<cpu, DType>::Seed *)

Section SeedFacts.
Context {Engine : Type} (mt_seed : Z -> Engine).

Lemma Seed_prefix seed (states_ : list Engine) n :
  (n <= length states_)%nat ->
  foldl (fun st i => <[i := mt_seed (to_uint32 (seed + Z.of_nat i))]> st)
        states_ (seq 0 n)
  = map (fun i => mt_seed (to_uint32 (seed + Z.of_nat i))) (seq 0 n)
    ++ drop n states_.
Proof.
  induction n as [|n IH]; intros Hn.
  - simpl. now rewrite drop_0.
  - rewrite seq_S, foldl_app, IH by lia. simpl.
    destruct (lookup_lt_is_Some_2 states_ n ltac:(lia)) as [x Hx].
    rewrite (drop_S _ _ _ Hx), map_app. simpl.
    rewrite insert_app_r_alt by (rewrite length_map, length_seq; lia).
    rewrite length_map, length_seq, Nat.sub_diag. simpl.
    now rewrite <- app_assoc.
Qed.

Lemma to_uint32_offsets_inj seed (i j : nat) :
  (i < kNumRandomStates)%nat -> (j < kNumRandomStates)%nat ->
  to_uint32 (seed + Z.of_nat i) = to_uint32 (seed + Z.of_nat j) -> i = j.
Proof.
  unfold kNumRandomStates, to_uint32. intros Hi Hj Heq.
  assert (Hm : (seed + Z.of_nat i - (seed + Z.of_nat j)) mod 2 ^ 32 = 0).
  { rewrite Zminus_mod, Heq, Z.sub_diag. reflexivity. }
  replace (seed + Z.of_nat i - (seed + Z.of_nat j))
    with (Z.of_nat i - Z.of_nat j) in Hm by lia.
  apply Z.mod_divide in Hm; [|discriminate]. destruct Hm as [q Hq].
  assert (q = 0) by lia. lia.
Qed.

(** X13.  [Seed] overwrites all 1024 engines, whatever state they were in:
    engine [i] is seeded with [seed + i] taken modulo [2 ^ 32], and these
    1024 seed values are pairwise distinct. *)
Theorem Seed_states seed (states_ : list Engine) :
  length states_ = kNumRandomStates ->
  Seed mt_seed seed states_
  = map (fun i => mt_seed (to_uint32 (seed + Z.of_nat i))) (seq 0 kNumRandomStates)
  /\ length (Seed mt_seed seed states_) = kNumRandomStates
  /\ NoDup (map (fun i => to_uint32 (seed + Z.of_nat i)) (seq 0 kNumRandomStates)).
Proof.
  intros Hlen.
  assert (Hseed : Seed mt_seed seed states_
                  = map (fun i => mt_seed (to_uint32 (seed + Z.of_nat i)))
                        (seq 0 kNumRandomStates)).
  { unfold Seed. rewrite Seed_prefix by lia.
    rewrite <- Hlen, drop_all. apply app_nil_r. }
  split; [exact Hseed|]. split.
  - rewrite Hseed, length_map, length_seq. reflexivity.
  - apply NoDup_fmap_2_strong; [|apply NoDup_seq].
    intros i j Hi Hj. apply elem_of_seq in Hi, Hj.
    apply to_uint32_offsets_inj; lia.
Qed.

End SeedFacts.

(** ** CuDNNConvolutionOp::GetTempSize *)

Lemma words_cover_bytes bytes dtype_size :
  0 <= bytes < SIZE_MOD -> 2 <= dtype_size ->
  bytes < size_add (bytes / dtype_size) 1 * dtype_size <= bytes + dtype_size.
Proof.
  intros Hb Hs. unfold size_add.
  assert (Hq : 0 <= bytes / dtype_size <= bytes / 2).
  { split; [apply Z.div_pos; lia|].
    apply Z.div_le_compat_l; lia. }
  assert (Hhalf : bytes / 2 + 1 < SIZE_MOD).
  { change SIZE_MOD with 18446744073709551616 in *.
    pose proof (Z.div_mod bytes 2 ltac:(lia)).
    pose proof (Z.mod_pos_bound bytes 2 ltac:(lia)). lia. }
  rewrite to_size_t_small by lia.
  pose proof (Z.div_mod bytes dtype_size ltac:(lia)) as Hdm.
  pose proof (Z.mod_pos_bound bytes dtype_size ltac:(lia)) as Hmb.
  nia.
Qed.

(** X14.  After a first [GetTempSize] that does not fail, the workspace
    sizes counted in elements of [DType] cover the byte sizes the library
    asked for: the forward one covers the forward bytes, the backward one
    covers both backward byte sizes, each with less than one element plus
    one element to spare; and a second call changes nothing, whatever the
    library would answer. *)
Theorem GetTempSize_covers dtype_size back_size back_size_w fwd_size t t' :
  2 <= dtype_size ->
  0 <= back_size < SIZE_MOD -> 0 <= back_size_w < SIZE_MOD ->
  0 <= fwd_size < SIZE_MOD ->
  init_temp_size_ t = false ->
  GetTempSize dtype_size (true, back_size) (true, back_size_w) (true, fwd_size) t
  = Some t' ->
  init_temp_size_ t' = true
  /\ forward_workspace_byte_ t' = fwd_size
  /\ backward_workspace_byte_ t' = Z.max back_size back_size_w
  /\ fwd_size < forward_workspace_ t' * dtype_size <= fwd_size + dtype_size
  /\ back_size < backward_workspace_ t' * dtype_size
  /\ back_size_w < backward_workspace_ t' * dtype_size
  /\ (forall q1 q2 q3, GetTempSize dtype_size q1 q2 q3 t' = Some t').
Proof.
  intros Hs Hb Hw Hf Hinit Hget. unfold GetTempSize in Hget.
  rewrite Hinit in Hget. simpl in Hget.
  rewrite !to_size_t_small in Hget by assumption.
  injection Hget as <-. simpl.
  split; [reflexivity|]. split; [reflexivity|]. split; [reflexivity|].
  split; [now apply words_cover_bytes|].
  pose proof (words_cover_bytes (Z.max back_size back_size_w) dtype_size
                ltac:(lia) Hs) as Hmax.
  split; [lia|]. split; [lia|].
  intros q1 q2 q3. reflexivity.
Qed.

(** A failed query is fatal: no sizes are recorded. *)
Lemma GetTempSize_fatal dtype_size q1 q2 q3 t :
  init_temp_size_ t = false ->
  fst q1 = false \/ fst q2 = false \/ fst q3 = false ->
  GetTempSize dtype_size q1 q2 q3 t = None.
Proof.
  intros Hinit Hfail. unfold GetTempSize. rewrite Hinit.
  destruct q1 as [[] ?], q2 as [[] ?], q3 as [[] ?]; simpl in *;
    try reflexivity; destruct Hfail as [?|[?|?]]; discriminate.
Qed.

(** ** Concrete runs for the further properties *)

Lemma Alloc_hit_then_Free_restores_witness :
  Free (List.last [4096] nullptr) 64
    (world_of (Alloc 64 (Sim.parked Sim.no_env Sim.roomy)))
  = Sim.parked Sim.no_env Sim.roomy.
Proof.
  apply (Alloc_hit_then_Free_restores 64 (Sim.parked Sim.no_env Sim.roomy) [4096]).
  reflexivity.
Defined.

Lemma Alloc_drains_bucket_witness :
  exists w',
    Alloc 64 (Sim.parked Sim.no_env Sim.roomy) = Ok 4096 w'
    /\ memory_pool_ (mgr w') !! bucket_key 64 = Some []
    /\ Alloc 64 w' = native_alloc (bucket_key 64) (flush_policy (bucket_key 64) w').
Proof.
  apply (Alloc_drains_bucket 64 (Sim.parked Sim.no_env Sim.roomy) 4096).
  reflexivity.
Defined.

Lemma Alloc_miss_without_flush_witness :
  log (world_of (Alloc 10 (Sim.parked Sim.no_env Sim.roomy)))
  = log (Sim.parked Sim.no_env Sim.roomy)
      ++ [CallMemGetInfo; CallMalloc (native_size (bucket_key 10))]
  /\ memory_pool_ (mgr (world_of (Alloc 10 (Sim.parked Sim.no_env Sim.roomy))))
     = memory_pool_ (mgr (Sim.parked Sim.no_env Sim.roomy)).
Proof.
  destruct (Alloc_miss_without_flush 10 (Sim.parked Sim.no_env Sim.roomy)
              500 1000 (dev (Sim.parked Sim.no_env Sim.roomy)))
    as (Hlog & Hpool & _).
  - reflexivity.
  - reflexivity.
  - size_bound.
  - size_bound.
  - split; assumption.
Defined.

Lemma ReleaseAll_counter_witness :
  used_memory_ (mgr (ReleaseAll (Sim.parked Sim.no_env Sim.roomy)))
  = used_memory_ (mgr (Sim.parked Sim.no_env Sim.roomy))
    - pooled_bytes (memory_pool_ (mgr (Sim.parked Sim.no_env Sim.roomy))).
Proof.
  destruct (ReleaseAll_counter (Sim.parked Sim.no_env Sim.roomy)) as (_ & _ & Hexact).
  - size_bound.
  - apply Hexact. size_bound.
Defined.

Lemma ReleaseAll_order_irrelevant_witness :
  used_memory_
    (mgr (foldl release_bucket
            (execs [OpAlloc 64; OpFree 4096 64; OpAlloc 10; OpFree 8192 10]
               (Sim.boot Sim.no_env Sim.roomy))
            [(96, [4096]); (42, [8192])]))
  = used_memory_
      (mgr (ReleaseAll
              (execs [OpAlloc 64; OpFree 4096 64; OpAlloc 10; OpFree 8192 10]
                 (Sim.boot Sim.no_env Sim.roomy)))).
Proof.
  apply (ReleaseAll_order_irrelevant [(96, [4096]); (42, [8192])]
           (execs [OpAlloc 64; OpFree 4096 64; OpAlloc 10; OpFree 8192 10]
              (Sim.boot Sim.no_env Sim.roomy))).
  - vm_compute. apply perm_swap.
  - size_bound.
Defined.

Lemma reserve_threshold_fraction_witness :
  reserve_threshold 1000 5 = 1000 * 5 / 100
  /\ reserve_threshold 1000 5 <= 1000
  /\ reserve_threshold 1000 5 <= reserve_threshold 1000 10.
Proof.
  apply (reserve_threshold_fraction 1000 5 10);
    unfold SIZE_MOD, SIZE_WIDTH; lia.
Defined.

Lemma reserve_threshold_overflow_witness :
  reserve_threshold (2 ^ 63) 2 < 2 ^ 63 * 2 / 100.
Proof.
  apply (reserve_threshold_overflow (2 ^ 63) 2);
    unfold SIZE_MOD, SIZE_WIDTH; lia.
Defined.

Lemma need_flush_monotone_witness : need_flush 90 1000 5 100 = true.
Proof.
  apply (need_flush_monotone 100 90 1000 5 82 100).
  - lia.
  - unfold SIZE_MOD, SIZE_WIDTH; lia.
  - lia.
  - reflexivity.
Defined.

Lemma full_reserve_always_flushes_witness : need_flush 500 1000 150 1 = true.
Proof.
  apply (full_reserve_always_flushes 500 1000 150 1);
    unfold SIZE_MOD, SIZE_WIDTH; lia.
Defined.

Lemma Seed_states_witness :
  length (Seed (fun v : Z => v) 4294967290 (repeat 0 1024)) = kNumRandomStates
  /\ NoDup (map (fun i => to_uint32 (4294967290 + Z.of_nat i)) (seq 0 kNumRandomStates)).
Proof.
  destruct (Seed_states (fun v : Z => v) 4294967290 (repeat 0 1024))
    as (_ & Hlen & Hdistinct).
  - apply repeat_length.
  - split; assumption.
Defined.

(** The seed wraps: with [seed = 2 ^ 32 - 6], engine 10 is seeded with 4. *)
Lemma Seed_wraps_run :
  Seed (fun v : Z => v) 4294967290 (repeat 0 1024) !! 10%nat = Some 4.
Proof. vm_compute. reflexivity. Qed.

Lemma GetTempSize_covers_witness :
  1000 < forward_workspace_ (mkTempSizes true 251 501 1000 2000) * 4 <= 1000 + 4
  /\ 2000 < backward_workspace_ (mkTempSizes true 251 501 1000 2000) * 4.
Proof.
  destruct (GetTempSize_covers 4 2000 1500 1000
              (mkTempSizes false 0 0 0 0) (mkTempSizes true 251 501 1000 2000))
    as (_ & _ & _ & Hfwd & Hback & _).
  - lia.
  - unfold SIZE_MOD, SIZE_WIDTH; lia.
  - unfold SIZE_MOD, SIZE_WIDTH; lia.
  - unfold SIZE_MOD, SIZE_WIDTH; lia.
  - reflexivity.
  - reflexivity.
  - split; assumption.
Defined.

(** ** The clamp and the counter *)

Section Clamp.
Context {D : Type} `{HipRuntime D}.

(** X15.  For a bucket key above 2147483647, [Alloc] adds 4194304 to the
    counter while the release of the same block subtracts the key: after
    [Alloc], [Free] and [ReleaseAll] on an empty pool the counter is off by
    [4194304 - key], in [size_t] arithmetic, from where it started. *)
Theorem clamped_block_unbalances_counter raw_size (w w1 : world D) p :
  memory_pool_ (mgr w) = ∅ ->
  0 <= used_memory_ (mgr w) < SIZE_MOD ->
  MAX_SPACE < bucket_key raw_size ->
  Alloc raw_size w = Ok p w1 ->
  used_memory_ (mgr w1) = size_add (used_memory_ (mgr w)) TEMP_FIX_SIZE
  /\ used_memory_ (mgr (ReleaseAll (Free p raw_size w1)))
     = to_size_t (used_memory_ (mgr w) + TEMP_FIX_SIZE - bucket_key raw_size)
  /\ memory_pool_ (mgr (ReleaseAll (Free p raw_size w1))) = ∅.
Proof.
  intros Hpool Hu Hbig Halloc.
  assert (Hmiss : reusable (bucket_key raw_size) (mgr w) = None).
  { apply reusable_None. left. rewrite Hpool. apply lookup_empty. }
  assert (Hflush : mgr (flush_policy (bucket_key raw_size) w) = mgr w).
  { destruct (flush_policy_mgr (bucket_key raw_size) w) as [-> | ->]; [reflexivity|].
    now rewrite (ReleaseAll_empty w Hpool). }
  rewrite (Alloc_miss _ _ Hmiss), native_alloc_cases in Halloc.
  rewrite (proj2 (native_size_cases _) Hbig) in Halloc.
  destruct (hip_failed _); [discriminate|].
  injection Halloc as _ <-. rewrite Hflush.
  split; [reflexivity|]. split; [|reflexivity].
  match goal with |- used_memory_ (mgr (ReleaseAll ?w2)) = _ =>
    assert (Hr : 0 <= used_memory_ (mgr w2) < SIZE_MOD)
      by (simpl; apply to_size_t_range);
    rewrite <- (to_size_t_small _ (ReleaseAll_range w2 Hr)), ReleaseAll_used
  end.
  simpl. fold (bucket_key raw_size). rewrite Hpool, lookup_empty. simpl.
  rewrite pooled_bytes_insert_fresh, pooled_bytes_empty by apply lookup_empty.
  unfold size_add. rewrite size_sub_idem_l. unfold size_sub. f_equal. simpl. lia.
Qed.

End Clamp.

Lemma clamped_block_unbalances_counter_witness :
  used_memory_
    (mgr (ReleaseAll (Free 4096 (2 ^ 31)
            (world_of (Alloc (2 ^ 31) (Sim.boot Sim.no_env Sim.roomy))))))
  = to_size_t (0 + TEMP_FIX_SIZE - bucket_key (2 ^ 31)).
Proof.
  destruct (clamped_block_unbalances_counter (2 ^ 31)
              (Sim.boot Sim.no_env Sim.roomy)
              (world_of (Alloc (2 ^ 31) (Sim.boot Sim.no_env Sim.roomy))) 4096)
    as (_ & Hused & _).
  - reflexivity.
  - size_bound.
  - size_bound.
  - reflexivity.
  - exact Hused.
Defined.
